(** * Critical-position database generator for Connect 4: bitboards, weak
    solver, classifier, enumerator and serializer of [retrogradgen.c],
    embedded as Rocq functions and checked against the specification. *)

From Stdlib Require Import ZArith Lia List Bool Znumtheory.
From stdpp Require Import base numbers option list gmap strings.

Local Open Scope Z_scope.

(** ** Machine integers

    [uint64_t] and [size_t] values are integers in [0, 2^64); every
    operation that can leave the range wraps.  [int] values stay far from
    the 32-bit bounds (scores and plies are below 64 in absolute value) and
    are plain integers; C's [/] on them truncates toward zero ([Z.quot]). *)

Module U64.

Definition modulus : Z := 2 ^ 64.
Definition wrap (x : Z) : Z := x mod modulus.
Definition add (a b : Z) : Z := wrap (a + b).
Definition sub (a b : Z) : Z := wrap (a - b).
Definition mul (a b : Z) : Z := wrap (a * b).
Definition shl (a k : Z) : Z := wrap (Z.shiftl a k).
Definition shr (a k : Z) : Z := Z.shiftr a k.
Definition not (a : Z) : Z := wrap (Z.lnot a).

End U64.

(** [(int8_t) x] and [(uint32_t) x], [(uint8_t) x]. *)
Definition to_int8 (x : Z) : Z := (x + 128) mod 256 - 128.
Definition to_uint32 (x : Z) : Z := x mod 2 ^ 32.
Definition to_uint8 (x : Z) : Z := x mod 2 ^ 8.

(** ** Configuration *)

Definition WIDTH : Z := 7.
Definition HEIGHT : Z := 6.
Definition MIN_PLY : Z := 15.
Definition MAX_PLY : Z := 28.
Definition TT_SIZE : Z := Z.shiftl 1 23.
Definition TT_MASK : Z := TT_SIZE - 1.
Definition MIN_SCORE : Z := Z.quot (- (WIDTH * HEIGHT)) 2 + 3.
Definition MAX_SCORE : Z := Z.quot (WIDTH * HEIGHT + 1) 2 - 3.

(** The columns [0 .. WIDTH-1], in the order of [for (col = 0; col < WIDTH; col++)]. *)
Definition columns : list Z := [0; 1; 2; 3; 4; 5; 6].
Definition column_order : list Z := [3; 2; 4; 1; 5; 0; 6].

(** ** Bitboard constants, as [init_bitboards] leaves them *)

Definition bottom_mask_col (col : Z) : Z := U64.shl 1 (col * (HEIGHT + 1)).
Definition column_mask_col (col : Z) : Z :=
  U64.shl (U64.shl 1 HEIGHT - 1) (col * (HEIGHT + 1)).
Definition bottom_mask : Z :=
  fold_left (fun acc col => Z.lor acc (bottom_mask_col col)) columns 0.
Definition board_mask : Z :=
  fold_left (fun acc col => Z.lor acc (column_mask_col col)) columns 0.
Definition top_mask_col (col : Z) : Z :=
  U64.shl 1 ((HEIGHT - 1) + col * (HEIGHT + 1)).

(** ** Positions *)

Record Position : Type := mkPosition {
  current : Z;   (* stones of the player to move *)
  mask : Z;      (* all stones on the board *)
  ply : Z        (* number of moves played *)
}.

Definition empty_position : Position := mkPosition 0 0 0.

Definition can_play (p : Position) (col : Z) : bool :=
  Z.land (mask p) (top_mask_col col) =? 0.

Definition move_bit (p : Position) (col : Z) : Z :=
  Z.land (U64.add (mask p) (bottom_mask_col col)) (column_mask_col col).

Definition play_col (p : Position) (col : Z) : Position :=
  let move := move_bit p col in
  mkPosition (Z.lxor (current p) (mask p)) (Z.lor (mask p) move) (ply p + 1).

(** [undo_col]: scan the column from the top row down for the topmost stone. *)
Definition undo_col (p : Position) (col : Z) : Position :=
  let col_stones := Z.land (mask p) (column_mask_col col) in
  let top_stone :=
    fold_left (fun (acc : Z) (row : Z) =>
                 if acc =? 0
                 then let bit := U64.shl 1 (row + col * (HEIGHT + 1)) in
                      if Z.land col_stones bit =? 0 then 0 else bit
                 else acc)
              [5; 4; 3; 2; 1; 0] 0 in
  let mask' := Z.lxor (mask p) top_stone in
  mkPosition (Z.lxor (current p) mask') mask' (ply p - 1).

Definition compute_winning_positions (position mask : Z) : Z :=
  let shl := U64.shl in
  let shr := U64.shr in
  (* vertical *)
  let r := Z.land (Z.land (shl position 1) (shl position 2)) (shl position 3) in
  (* horizontal *)
  let p := Z.land (shl position (HEIGHT + 1)) (shl position (2 * (HEIGHT + 1))) in
  let r := Z.lor r (Z.land p (shl position (3 * (HEIGHT + 1)))) in
  let r := Z.lor r (Z.land p (shr position (HEIGHT + 1))) in
  let p := Z.land (shr position (HEIGHT + 1)) (shr position (2 * (HEIGHT + 1))) in
  let r := Z.lor r (Z.land p (shl position (HEIGHT + 1))) in
  let r := Z.lor r (Z.land p (shr position (3 * (HEIGHT + 1)))) in
  (* diagonal / *)
  let p := Z.land (shl position HEIGHT) (shl position (2 * HEIGHT)) in
  let r := Z.lor r (Z.land p (shl position (3 * HEIGHT))) in
  let r := Z.lor r (Z.land p (shr position HEIGHT)) in
  let p := Z.land (shr position HEIGHT) (shr position (2 * HEIGHT)) in
  let r := Z.lor r (Z.land p (shl position HEIGHT)) in
  let r := Z.lor r (Z.land p (shr position (3 * HEIGHT))) in
  (* diagonal \ *)
  let p := Z.land (shl position (HEIGHT + 2)) (shl position (2 * (HEIGHT + 2))) in
  let r := Z.lor r (Z.land p (shl position (3 * (HEIGHT + 2)))) in
  let r := Z.lor r (Z.land p (shr position (HEIGHT + 2))) in
  let p := Z.land (shr position (HEIGHT + 2)) (shr position (2 * (HEIGHT + 2))) in
  let r := Z.lor r (Z.land p (shl position (HEIGHT + 2))) in
  let r := Z.lor r (Z.land p (shr position (3 * (HEIGHT + 2)))) in
  Z.land r (Z.lxor board_mask mask).

(** The drop cells of all columns: [(mask + bottom_mask) & board_mask]. *)
Definition possible_moves (p : Position) : Z :=
  Z.land (U64.add (mask p) bottom_mask) board_mask.

Definition can_win_next (p : Position) : bool :=
  let winning := compute_winning_positions (current p) (mask p) in
  negb (Z.land winning (possible_moves p) =? 0).

Definition get_winning_col (p : Position) : Z :=
  let winning := compute_winning_positions (current p) (mask p) in
  let winning_moves := Z.land winning (possible_moves p) in
  if winning_moves =? 0 then -1
  else match filter (fun col => Z.land winning_moves (column_mask_col col) ≠ 0) columns with
       | col :: _ => col
       | [] => -1
       end.

Definition opponent_winning_positions (p : Position) : Z :=
  compute_winning_positions (Z.lxor (current p) (mask p)) (mask p).

Definition non_losing_moves (p : Position) : Z :=
  let possible := possible_moves p in
  let opponent_wins := opponent_winning_positions p in
  let forced := Z.land possible opponent_wins in
  if forced =? 0
  then Z.land possible (U64.not (U64.shr opponent_wins 1))
  else if Z.land forced (U64.sub forced 1) =? 0
       then Z.land forced (U64.not (U64.shr opponent_wins 1))
       else 0.

Definition position_key (p : Position) : Z := U64.add (current p) (mask p).

(** [__builtin_popcountll]. *)
Definition popcount (x : Z) : Z :=
  fold_left (fun acc i => if Z.testbit x (Z.of_nat i) then acc + 1 else acc) (seq 0 64) 0.

Definition move_score (p : Position) (move : Z) : Z :=
  let new_pos := Z.lor (current p) move in
  popcount (compute_winning_positions new_pos (mask p)).

(** ** Transposition table

    [tt] is a zero-filled array of [TT_SIZE] entries; the map holds the
    slots written so far and every other slot reads as the zero entry. *)

Record TTEntry : Type := mkTTEntry { tt_key : Z; tt_value : Z }.

Abbreviation TT := (gmap Z TTEntry).

Definition tt_slot (tbl : TT) (idx : Z) : TTEntry :=
  default (mkTTEntry 0 0) (tbl !! idx).

Definition tt_clear (tbl : TT) : TT := ∅.

Definition tt_store (tbl : TT) (key value : Z) : TT :=
  let idx := Z.land key TT_MASK in
  <[idx := mkTTEntry key (to_int8 (value - MIN_SCORE + 1))]> tbl.

Definition tt_probe (tbl : TT) (key : Z) : option Z :=
  let idx := Z.land key TT_MASK in
  let e := tt_slot tbl idx in
  if (tt_key e =? key) && negb (tt_value e =? 0)
  then Some (tt_value e + MIN_SCORE - 1)
  else None.

(** ** Solver *)

Record MoveEntry : Type := mkMoveEntry { me_move : Z; me_score : Z }.

(** The moves of [possible], one per column in [column_order]. *)
Definition collect_moves (p : Position) (possible : Z) : list MoveEntry :=
  fold_left (fun moves col =>
               let move := Z.land possible (column_mask_col col) in
               if move =? 0 then moves
               else moves ++ [mkMoveEntry move (move_score p move)])
            column_order [].

(** One comparison of the exchange sort: swap slots [i] and [j] when the
    later one has the larger score. *)
Definition sort_step (moves : list MoveEntry) (i j : nat) : list MoveEntry :=
  match moves !! i, moves !! j with
  | Some a, Some b =>
      if me_score b >? me_score a then <[j := a]> (<[i := b]> moves) else moves
  | _, _ => moves
  end.

Definition sort_moves (moves : list MoveEntry) : list MoveEntry :=
  let n := length moves in
  fold_left (fun ms i =>
               fold_left (fun ms' j => sort_step ms' i j) (seq (S i) (n - S i)) ms)
            (seq 0 (n - 1)) moves.

(** The search loop of [negamax] over the sorted moves; [rec] is the
    recursive call.  The result is the final [best] and table. *)
Fixpoint search_moves (rec : Position -> Z -> Z -> TT -> option (Z * TT))
    (p : Position) (moves : list MoveEntry) (alpha beta best : Z) (tbl : TT)
    : option (Z * TT) :=
  match moves with
  | [] => Some (best, tbl)
  | m :: rest =>
      let child := mkPosition (Z.lxor (current p) (mask p))
                              (Z.lor (mask p) (me_move m)) (ply p + 1) in
      match rec child (- beta) (- alpha) tbl with
      | None => None
      | Some (r, tbl) =>
          let score := - r in
          let best := if score >? best then score else best in
          let alpha := if score >? alpha then score else alpha in
          if alpha >=? beta then Some (best, tbl)
          else search_moves rec p rest alpha beta best tbl
      end
  end.

(** [negamax]; [None] only when the recursion budget [fuel] is used up. *)
Fixpoint negamax (fuel : nat) (p : Position) (alpha beta : Z) (tbl : TT)
    : option (Z * TT) :=
  match fuel with
  | O => None
  | S fuel =>
      if can_win_next p then Some (Z.quot (WIDTH * HEIGHT + 1 - ply p) 2, tbl)
      else
        let possible := non_losing_moves p in
        if possible =? 0 then Some (Z.quot (- (WIDTH * HEIGHT - ply p)) 2, tbl)
        else if ply p >=? WIDTH * HEIGHT - 2 then Some (0, tbl)
        else
          let min := Z.quot (- (WIDTH * HEIGHT - 2 - ply p)) 2 in
          let alpha1 := if alpha <? min then min else alpha in
          if (alpha <? min) && (alpha1 >=? beta) then Some (alpha1, tbl)
          else
            let max := Z.quot (WIDTH * HEIGHT - 1 - ply p) 2 in
            let beta1 := if beta >? max then max else beta in
            if (beta >? max) && (alpha1 >=? beta1) then Some (beta1, tbl)
            else
              let key := position_key p in
              let hit :=
                match tt_probe tbl key with
                | Some tt_val =>
                    if (tt_val >=? beta1) || (tt_val <=? alpha1) then Some tt_val
                    else None
                | None => None
                end in
              match hit with
              | Some tt_val => Some (tt_val, tbl)
              | None =>
                  let moves := sort_moves (collect_moves p possible) in
                  match search_moves (negamax fuel) p moves alpha1 beta1
                                     (- WIDTH * HEIGHT) tbl with
                  | None => None
                  | Some (best, tbl) => Some (best, tt_store tbl key best)
                  end
              end
  end.

(** The null-window loop of [solve] on the interval [min, max]. *)
Fixpoint solve_loop (fuel : nat) (p : Position) (min max : Z) (tbl : TT)
    : option (Z * TT) :=
  if min <? max then
    match fuel with
    | O => None
    | S fuel' =>
        let med := min + Z.quot (max - min) 2 in
        let med :=
          if (med <=? 0) && (Z.quot min 2 <? med) then Z.quot min 2
          else if (med >=? 0) && (Z.quot max 2 >? med) then Z.quot max 2
          else med in
        match negamax fuel p med (med + 1) tbl with
        | None => None
        | Some (r, tbl) =>
            if r <=? med then solve_loop fuel' p min r tbl
            else solve_loop fuel' p r max tbl
        end
    end
  else Some (min, tbl).

Definition solve (fuel : nat) (p : Position) (tbl : TT) : option (Z * TT) :=
  if can_win_next p then Some (Z.quot (WIDTH * HEIGHT + 1 - ply p) 2, tbl)
  else
    let min := Z.quot (- (WIDTH * HEIGHT - ply p)) 2 in
    let max := Z.quot (WIDTH * HEIGHT + 1 - ply p) 2 in
    solve_loop fuel p min max tbl.

(** ** The game, for reference

    Modelled from the spec: the rules of the game (section 1), which the
    program assumes and never states: a 7 x 6 grid, stones fall to the
    lowest empty cell of the chosen column, and a player wins by aligning
    four stones horizontally, vertically or diagonally. *)

Definition cell_bit (col row : Z) : Z := Z.shiftl 1 (col * 7 + row).

Definition on_board (col row : Z) : bool :=
  (0 <=? col) && (col <? 7) && (0 <=? row) && (row <? 6).

(** The four cells from ([col], [row]) in direction ([dc], [dr]), when all
    lie on the board. *)
Definition spec_line (col row dc dr : Z) : option Z :=
  let cells := map (fun k => (col + k * dc, row + k * dr)) [0; 1; 2; 3] in
  if forallb (fun cr => on_board cr.1 cr.2) cells
  then Some (fold_left (fun acc cr => Z.lor acc (cell_bit cr.1 cr.2)) cells 0)
  else None.

Definition spec_lines : list Z :=
  Eval vm_compute in
  omap (fun x => x)
       (col ← columns; row ← [0; 1; 2; 3; 4; 5];
        d ← [(1, 0); (0, 1); (1, 1); (1, -1)];
        [spec_line col row d.1 d.2]).

(** Some line is fully covered by [stones]. *)
Definition spec_has_four (stones : Z) : bool :=
  existsb (fun l => Z.land stones l =? l) spec_lines.

(** Outcome under perfect play for the side to move in a position where
    nobody has four yet: [1] win, [0] draw, [-1] loss.  [fuel] bounds the
    number of stones still to be played. *)
Fixpoint spec_outcome (fuel : nat) (p : Position) : Z :=
  match fuel with
  | O => 0
  | S fuel =>
      let results :=
        omap (fun col =>
                if can_play p col
                then Some (if spec_has_four (Z.lor (current p) (move_bit p col))
                           then 1
                           else - spec_outcome fuel (play_col p col))
                else None)
             columns in
      match results with
      | [] => 0
      | r :: rs => fold_left Z.max rs r
      end
  end.

(** ** Program state and control

    The globals of the program, the standard-error stream, the output file
    and what the environment decides: whether each allocation request and
    the [fopen] succeed. *)

Record CriticalEntry : Type := mkCriticalEntry { hash : Z; winning_col : Z }.

(** The content of [critical.db]. *)
Record Database : Type := mkDatabase {
  db_header : list Z;      (* the eight header bytes *)
  db_table_size : Z;       (* uint32 *)
  db_keys : list Z;        (* uint32 each *)
  db_values : list Z       (* uint8 each *)
}.

Record State : Type := mkState {
  tt : TT;
  critical_list : list CriticalEntry;
  critical_capacity : Z;
  positions_analyzed : Z;
  positions_critical : Z;
  positions_skipped : Z;
  stderr : list string;
  heap : list bool;        (* outcomes of the coming allocation requests *)
  fopen_ok : bool;
  file : option Database
}.

Definition critical_count (st : State) : Z := Z.of_nat (length (critical_list st)).

Definition initial_state (heap : list bool) (fopen_ok : bool) : State :=
  mkState ∅ [] 0 0 0 0 [] heap fopen_ok None.

Definition set_tt (st : State) (tbl : TT) : State :=
  mkState tbl (critical_list st) (critical_capacity st) (positions_analyzed st)
          (positions_critical st) (positions_skipped st) (stderr st) (heap st)
          (fopen_ok st) (file st).

Definition count_analyzed (st : State) : State :=
  mkState (tt st) (critical_list st) (critical_capacity st)
          (U64.add (positions_analyzed st) 1)
          (positions_critical st) (positions_skipped st) (stderr st) (heap st)
          (fopen_ok st) (file st).

Definition count_skipped (st : State) : State :=
  mkState (tt st) (critical_list st) (critical_capacity st) (positions_analyzed st)
          (positions_critical st) (U64.add (positions_skipped st) 1) (stderr st)
          (heap st) (fopen_ok st) (file st).

Definition eprint (msg : string) (st : State) : State :=
  mkState (tt st) (critical_list st) (critical_capacity st) (positions_analyzed st)
          (positions_critical st) (positions_skipped st) (stderr st ++ [msg])
          (heap st) (fopen_ok st) (file st).

(** One allocation request ([calloc], [realloc]): the next outcome of the
    environment; an exhausted list grants every request. *)
Definition alloc (st : State) : bool * State :=
  match heap st with
  | [] => (true, st)
  | ok :: rest =>
      (ok, mkState (tt st) (critical_list st) (critical_capacity st)
                   (positions_analyzed st) (positions_critical st)
                   (positions_skipped st) (stderr st) rest (fopen_ok st) (file st))
  end.

(** How a call ends: it returns, the process exits ([exit(code)]), or the
    evaluation budget of the model is used up. *)
Inductive result (A : Type) : Type :=
| Return (a : A) (st : State)
| Exit (code : Z) (st : State)
| OutOfFuel.
Arguments Return {A} a st.
Arguments Exit {A} code st.
Arguments OutOfFuel {A}.

Definition bind {A B : Type} (r : result A) (k : A -> State -> result B) : result B :=
  match r with
  | Return a st => k a st
  | Exit code st => Exit code st
  | OutOfFuel => OutOfFuel
  end.

Definition newline : string := String (Ascii.ascii_of_nat 10) EmptyString.

(** ** Utility functions *)

(** The loop [for (i = 3; i * i <= n; i += 2)] of [is_prime]. *)
Fixpoint is_prime_loop (fuel : nat) (n i : Z) : option bool :=
  if U64.mul i i <=? n then
    match fuel with
    | O => None
    | S fuel => if n mod i =? 0 then Some false
                else is_prime_loop fuel n (U64.add i 2)
    end
  else Some true.

Definition is_prime (fuel : nat) (n : Z) : option bool :=
  if n <? 2 then Some false
  else if n =? 2 then Some true
  else if n mod 2 =? 0 then Some false
  else is_prime_loop fuel n 3.

Fixpoint next_prime (fuel : nat) (n : Z) : option Z :=
  match fuel with
  | O => None
  | S fuel' =>
      match is_prime fuel n with
      | None => None
      | Some true => Some n
      | Some false => next_prime fuel' (U64.add n 1)
      end
  end.

Definition tt_init (st : State) : result unit :=
  let (ok, st) := alloc st in
  if ok then Return () (set_tt st ∅)
  else Exit 1 (eprint ("Failed to allocate transposition table!" +:+ newline) st).

Definition tt_free (st : State) : State := set_tt st ∅.

(** ** Critical position detection *)

Definition is_obvious_move (p : Position) (col : Z) : bool :=
  let my_winning := compute_winning_positions (current p) (mask p) in
  let move := move_bit p col in
  if negb (Z.land my_winning move =? 0) then true
  else
    let opp_winning := opponent_winning_positions p in
    if negb (Z.land opp_winning move =? 0) then true
    else false.

Definition add_critical (hash winning_col : Z) (st : State) : result unit :=
  let grown :=
    if critical_count st >=? critical_capacity st then
      let capacity := if critical_capacity st =? 0 then 1000000
                      else U64.mul (critical_capacity st) 2 in
      let (ok, st) := alloc st in
      let st := mkState (tt st) (critical_list st) capacity (positions_analyzed st)
                        (positions_critical st) (positions_skipped st) (stderr st)
                        (heap st) (fopen_ok st) (file st) in
      if ok then Return () st
      else Exit 1 (eprint ("Failed to allocate critical list!" +:+ newline) st)
    else Return () st in
  bind grown (fun _ st =>
    Return ()
      (mkState (tt st)
               (critical_list st ++ [mkCriticalEntry hash (to_uint8 winning_col)])
               (critical_capacity st) (positions_analyzed st)
               (U64.add (positions_critical st) 1) (positions_skipped st)
               (stderr st) (heap st) (fopen_ok st) (file st))).

(** Outcome of the move loop of [analyze_position]: the winning columns in
    the order found, and the numbers of drawing and losing moves. *)
Record MoveCounts : Type := mkMoveCounts {
  winning_cols : list Z;
  draw_count : Z;
  loss_count : Z
}.

Definition win_count (mc : MoveCounts) : Z := Z.of_nat (length (winning_cols mc)).

Fixpoint evaluate_moves (fuel : nat) (p : Position) (possible : Z) (cols : list Z)
    (mc : MoveCounts) (tbl : TT) : option (MoveCounts * TT) :=
  match cols with
  | [] => Some (mc, tbl)
  | col :: cols =>
      if negb (can_play p col) then evaluate_moves fuel p possible cols mc tbl
      else if Z.land possible (column_mask_col col) =? 0
      then evaluate_moves fuel p possible cols mc tbl
      else
        let child := play_col p col in
        match solve fuel child tbl with
        | None => None
        | Some (r, tbl) =>
            let score := - r in
            let mc :=
              if score >? 0
              then mkMoveCounts (winning_cols mc ++ [col]) (draw_count mc) (loss_count mc)
              else if score =? 0
              then mkMoveCounts (winning_cols mc) (draw_count mc + 1) (loss_count mc)
              else mkMoveCounts (winning_cols mc) (draw_count mc) (loss_count mc + 1) in
            evaluate_moves fuel p possible cols mc tbl
        end
  end.

(** [analyze_position]: the winning column if the position is critical,
    [-1] otherwise. *)
Definition analyze_position (fuel : nat) (p : Position) (st : State) : result Z :=
  let st := count_analyzed st in
  if (ply p <? MIN_PLY) || (ply p >? MAX_PLY) then Return (-1) (count_skipped st)
  else if can_win_next p then Return (-1) (count_skipped st)
  else
    let possible := non_losing_moves p in
    if possible =? 0 then Return (-1) (count_skipped st)
    else
      match evaluate_moves fuel p possible columns (mkMoveCounts [] 0 0) (tt st) with
      | None => OutOfFuel
      | Some (mc, tbl) =>
          let st := set_tt st tbl in
          match winning_cols mc with
          | [winning_col] =>
              if negb (is_obvious_move p winning_col) then Return winning_col st
              else Return (-1) (count_skipped st)
          | _ => Return (-1) (count_skipped st)
          end
      end.

(** ** Position generation *)

(** The first statement of [generate_positions]: analyze a position inside
    the ply window and record it when it is critical. *)
Definition visit (fuel : nat) (p : Position) (st : State) : result unit :=
  if (ply p >=? MIN_PLY) && (ply p <=? MAX_PLY) then
    bind (analyze_position fuel p st) (fun critical_col st =>
      if critical_col >=? 0 then add_critical (position_key p) critical_col st
      else Return () st)
  else Return () st.

(** The loop over the children, given the recursive call. *)
Fixpoint generate_children (rec : Position -> Z -> State -> result unit)
    (p : Position) (depth : Z) (cols : list Z) (st : State) : result unit :=
  match cols with
  | [] => Return () st
  | col :: cols =>
      if negb (can_play p col) then generate_children rec p depth cols st
      else
        let child := play_col p col in
        bind (rec child (depth + 1) st) (fun _ st =>
          generate_children rec p depth cols st)
  end.

(** [generate_positions]; progress reports on standard output are left out. *)
Fixpoint generate_positions (fuel : nat) (p : Position) (depth : Z) (st : State)
    : result unit :=
  match fuel with
  | O => OutOfFuel
  | S fuel =>
      bind (visit fuel p st) (fun _ st =>
        if ply p >=? MAX_PLY then Return () st
        else if can_win_next p then Return () st
        else generate_children (generate_positions fuel) p depth columns st)
  end.

(** ** Saving the database *)

(** The probe loop [while (keys[idx] != 0) idx = (idx + 1) % table_size]. *)
Fixpoint probe_free (fuel : nat) (keys : list Z) (table_size idx : Z) : option Z :=
  match keys !! Z.to_nat idx with
  | Some k =>
      if k =? 0 then Some idx
      else match fuel with
           | O => None
           | S fuel => probe_free fuel keys table_size (U64.add idx 1 mod table_size)
           end
  | None => None
  end.

(** One round of the insertion loop. *)
Definition insert_entry (fuel : nat) (table_size : Z) (e : CriticalEntry)
    (kv : list Z * list Z) : option (list Z * list Z) :=
  let partial_key := to_uint32 (U64.shr (hash e) 16) in
  match probe_free fuel kv.1 table_size (hash e mod table_size) with
  | None => None
  | Some idx =>
      Some (<[Z.to_nat idx := partial_key]> kv.1,
            <[Z.to_nat idx := winning_col e]> kv.2)
  end.

Fixpoint insert_all (fuel : nat) (table_size : Z) (entries : list CriticalEntry)
    (kv : list Z * list Z) : option (list Z * list Z) :=
  match entries with
  | [] => Some kv
  | e :: entries =>
      match insert_entry fuel table_size e kv with
      | None => None
      | Some kv => insert_all fuel table_size entries kv
      end
  end.

(** The hash table of [save_database] for a list of entries: its size and
    the two arrays. *)
Definition build_table (fuel : nat) (entries : list CriticalEntry)
    : option (Z * list Z * list Z) :=
  match next_prime fuel (U64.mul (Z.of_nat (length entries)) 2) with
  | None => None
  | Some table_size =>
      let zeros := replicate (Z.to_nat table_size) 0 in
      match insert_all fuel table_size entries (zeros, zeros) with
      | None => None
      | Some (keys, values) => Some (table_size, keys, values)
      end
  end.

Definition header : list Z := [WIDTH; HEIGHT; MIN_PLY; MAX_PLY; 4; 1; 0; 0].

Definition save_database (fuel : nat) (st : State) : result unit :=
  if critical_count st =? 0 then Return () st
  else
    match next_prime fuel (U64.mul (critical_count st) 2) with
    | None => OutOfFuel
    | Some table_size =>
        let (keys_ok, st) := alloc st in
        let (values_ok, st) := alloc st in
        if negb keys_ok || negb values_ok
        then Return () (eprint ("Failed to allocate hash table!" +:+ newline) st)
        else
          let zeros := replicate (Z.to_nat table_size) 0 in
          match insert_all fuel table_size (critical_list st) (zeros, zeros) with
          | None => OutOfFuel
          | Some (keys, values) =>
              if negb (fopen_ok st)
              then Return () (eprint ("Failed to open critical.db for writing!" +:+ newline) st)
              else
                Return ()
                  (mkState (tt st) (critical_list st) (critical_capacity st)
                           (positions_analyzed st) (positions_critical st)
                           (positions_skipped st) (stderr st) (heap st) (fopen_ok st)
                           (Some (mkDatabase header (to_uint32 table_size) keys values)))
          end
    end.

(** ** The program *)

(** What [main] does once the enumeration is over: save, clean up and
    return 0. *)
Definition finish (fuel : nat) (st : State) : result Z :=
  bind (save_database fuel st) (fun _ st =>
    let st := tt_free st in
    let st := mkState (tt st) [] (critical_capacity st) (positions_analyzed st)
                      (positions_critical st) (positions_skipped st) (stderr st)
                      (heap st) (fopen_ok st) (file st) in
    Return 0 st).

Definition main (fuel : nat) (st : State) : result Z :=
  bind (tt_init st) (fun _ st =>
    bind (generate_positions fuel empty_position 0 st) (fun _ st =>
      finish fuel st)).

(** The exit status of the process: the argument of [exit], or the value
    [main] returns. *)
Definition exit_status (r : result Z) : option Z :=
  match r with
  | Return code _ => Some code
  | Exit code _ => Some code
  | OutOfFuel => None
  end.

(** ** Lookup in the database

    Modelled from the spec: the consumer's lookup procedure (section 6),
    which belongs to the playing agent and is not part of this program:
    [idx = hash64 mod table_size], probe linearly, a slot matches when
    [keys[idx] == hash64 >> 16], the move is [values[idx]], and an empty
    slot (key 0) ends the probe with "not critical". *)
Fixpoint lookup_from (fuel : nat) (table_size : Z) (keys values : list Z)
    (hash64 idx : Z) : option (option Z) :=
  match keys !! Z.to_nat idx with
  | Some k =>
      if k =? 0 then Some None
      else if k =? to_uint32 (U64.shr hash64 16)
      then Some (values !! Z.to_nat idx)
      else match fuel with
           | O => None
           | S fuel =>
               lookup_from fuel table_size keys values hash64
                           (U64.add idx 1 mod table_size)
           end
  | None => None
  end.

(** [Some (Some col)]: found with move [col]; [Some None]: not critical;
    [None]: the probe did not end within [fuel] steps. *)
Definition lookup (fuel : nat) (table_size : Z) (keys values : list Z) (hash64 : Z)
    : option (option Z) :=
  lookup_from fuel table_size keys values hash64 (hash64 mod table_size).

(** The functions of the program are unfolded explicitly in the proofs. *)
Arguments compute_winning_positions : simpl never.
Arguments possible_moves : simpl never.
Arguments can_win_next : simpl never.
Arguments opponent_winning_positions : simpl never.
Arguments non_losing_moves : simpl never.
Arguments can_play : simpl never.
Arguments move_bit : simpl never.
Arguments play_col : simpl never.
Arguments position_key : simpl never.
Arguments move_score : simpl never.
Arguments popcount : simpl never.
Arguments negamax : simpl never.
Arguments solve : simpl never.
Arguments is_obvious_move : simpl never.
Arguments analyze_position : simpl never.
Arguments add_critical : simpl never.
Arguments visit : simpl never.
Arguments column_mask_col : simpl never.
Arguments bottom_mask_col : simpl never.
Arguments top_mask_col : simpl never.
Arguments to_uint8 : simpl never.
Arguments to_uint32 : simpl never.

(** * Specification vocabulary *)

(** Every move of the list lands in a column that is not full, and the
    side to move before it has no immediate win. *)
Fixpoint enumerator_path (p : Position) (moves : list Z) : bool :=
  match moves with
  | [] => true
  | col :: moves =>
      negb (can_win_next p) && can_play p col && enumerator_path (play_col p col) moves
  end.

Definition tt_failure_message : string :=
  "Failed to allocate transposition table!" +:+ newline.
Definition critical_failure_message : string :=
  "Failed to allocate critical list!" +:+ newline.
Definition table_failure_message : string :=
  "Failed to allocate hash table!" +:+ newline.

(** The drop cell of [col] completes four-in-a-row for the mover. *)
Definition win_in_one (p : Position) (col : Z) : bool :=
  negb (Z.land (compute_winning_positions (current p) (mask p)) (move_bit p col) =? 0).

(** The drop cell of [col] is a winning cell of the opponent. *)
Definition forced_block (p : Position) (col : Z) : bool :=
  negb (Z.land (opponent_winning_positions p) (move_bit p col) =? 0).

(** The last step of [analyze_position], on the outcome of the move loop. *)
Definition classify (p : Position) (st : State) (mc : MoveCounts) (tbl : TT) : result Z :=
  match winning_cols mc with
  | [winning_col] =>
      if negb (is_obvious_move p winning_col) then Return winning_col (set_tt st tbl)
      else Return (-1) (count_skipped (set_tt st tbl))
  | _ => Return (-1) (count_skipped (set_tt st tbl))
  end.

(** [enumerated p q]: the traversal started at [p] visits [q]: it descends
    only from positions below [MAX_PLY] in which the side to move has no
    immediate win, into playable columns. *)
Inductive enumerated (p : Position) : Position -> Prop :=
| enumerated_here : enumerated p p
| enumerated_child q col :
    enumerated p q ->
    ply q < MAX_PLY -> can_win_next q = false ->
    In col columns -> can_play q col = true ->
    enumerated p (play_col q col).

(** An entry recorded for a position [q] that the traversal from [root]
    visits inside the ply window, with the column the classifier returned. *)
Definition window_entry (root : Position) (e : CriticalEntry) : Prop :=
  exists q c fuel st1 st2,
    enumerated root q /\ MIN_PLY <= ply q <= MAX_PLY /\
    analyze_position fuel q st1 = Return c st2 /\ 0 <= c /\
    e = mkCriticalEntry (position_key q) (to_uint8 c).

Definition extends (root : Position) (st st' : State) : Prop :=
  exists new, critical_list st' = critical_list st ++ new /\
              Forall (window_entry root) new.

(** The values of a 32-bit unsigned integer. *)
Definition uint32_range (n : Z) : Prop := 0 <= n < 2 ^ 32.

(** The largest prime below 2^32. *)
Definition largest_prime32 : Z := 4294967291.

(** Bit 6 of every 7-bit lane is clear. *)
Definition guard_clear (x : Z) : bool :=
  forallb (fun col => negb (Z.testbit x (7 * col + 6))) columns.

(** If row [r] of a column is occupied, so is row [r - 1]. *)
Definition heights_monotone (m : Z) : bool :=
  forallb (fun col =>
             forallb (fun row => implb (Z.testbit m (7 * col + row))
                                       (Z.testbit m (7 * col + row - 1)))
                     [1; 2; 3; 4; 5])
          columns.

Definition invariants (p : Position) : bool :=
  (Z.land (current p) (mask p) =? current p)
  && (Z.land (mask p) board_mask =? mask p)
  && (Z.land (current p) board_mask =? current p)
  && guard_clear (mask p) && guard_clear (current p)
  && (popcount (mask p) =? ply p)
  && heights_monotone (mask p).

(** Positions reachable from the empty position by [play_col] on playable
    columns. *)
Inductive reachable : Position -> Prop :=
| reachable_empty : reachable empty_position
| reachable_play p col :
    reachable p -> In col columns -> can_play p col = true ->
    reachable (play_col p col).

(** [column_height m c h]: in [m], column [c] holds exactly the cells of
    rows [0 .. h - 1]. *)
Definition column_height (m c h : Z) : Prop :=
  0 <= h <= 6 /\ forall r, 0 <= r < 7 -> Z.testbit m (7 * c + r) = (r <? h).

Definition count_step (x : Z) (acc : Z) (i : nat) : Z :=
  if Z.testbit x (Z.of_nat i) then acc + 1 else acc.

(** The 7-bit lane of column [c]. *)
Definition lane (x c : Z) : Z := Z.land (Z.shiftr x (7 * c)) (Z.ones 7).

Definition is_column (v : Z) : Prop := 0 <= v <= 6.

(** The 32-bit partial key stored for a 64-bit hash. *)
Definition partial_key (hash64 : Z) : Z := to_uint32 (U64.shr hash64 16).

(** The slot probed after [idx]. *)
Definition next_slot (table_size idx : Z) : Z := (idx + 1) mod table_size.

(** [probe table_size P keys s d idx]: [d] probe steps lead from slot [s] to slot
    [idx], over occupied slots whose keys satisfy [P]. *)
Inductive probe (table_size : Z) (P : Z -> Prop) (keys : list Z) : Z -> nat -> Z -> Prop :=
| probe_here s : probe table_size P keys s 0 s
| probe_next s k d idx :
    keys !! Z.to_nat s = Some k -> k <> 0 -> P k ->
    probe table_size P keys (next_slot table_size s) d idx ->
    probe table_size P keys s (S d) idx.

(** The distance from slot [s] forward to slot [z]. *)
Definition probe_distance (table_size s z : Z) : Z := (z - s) mod table_size.

(** The number of occupied slots. *)
Fixpoint occupied (keys : list Z) : nat :=
  match keys with
  | [] => 0
  | k :: keys => (if k =? 0 then 0 else 1) + occupied keys
  end.

(** An entry is stored: probing from its home slot over other keys reaches
    a slot with its partial key and its column. *)
Definition stored (table_size : Z) (keys values : list Z) (e : CriticalEntry) : Prop :=
  exists d idx,
    (d < Z.to_nat table_size)%nat /\
    probe table_size (fun k => k <> partial_key (hash e)) keys (hash e mod table_size) d idx /\
    keys !! Z.to_nat idx = Some (partial_key (hash e)) /\
    values !! Z.to_nat idx = Some (winning_col e).

Definition table_inv (table_size : Z) (done : list CriticalEntry) (kv : list Z * list Z) : Prop :=
  length kv.1 = Z.to_nat table_size /\ length kv.2 = Z.to_nat table_size /\
  (occupied kv.1 <= length done)%nat /\
  (forall i k, kv.1 !! i = Some k -> k <> 0 ->
     exists e, e ∈ done /\ k = partial_key (hash e)) /\
  (forall e, e ∈ done -> partial_key (hash e) <> 0 /\ stored table_size kv.1 kv.2 e).

(** ** Positions and states used as examples *)

(** A position after 29 moves, reached from the empty board without any
    side ever having an immediate win on its turn. *)
Definition lost_win_moves : list Z :=
  [0; 2; 6; 6; 0; 6; 2; 2; 4; 1; 6; 6; 2; 0; 1; 5; 6; 1; 1; 5; 5; 5; 0; 0; 2; 2; 5; 0; 1].

Definition lost_win_position : Position :=
  fold_left play_col lost_win_moves empty_position.

(** A state as the enumeration may leave it: one critical entry, and an
    environment that refuses the next allocation. *)
Definition exhausted_state : State :=
  mkState ∅ [mkCriticalEntry 127681061063811 3] 1000000 1 1 0 [] [false] true None.

(** A position in the ply window whose only move scored as a win is the
    answer to an immediate threat of the opponent. *)
Definition forced_block_position : Position :=
  mkPosition 164171104796716 279241868690367 28.

(** A position of ply 28 that the classifier reports as critical. *)
Definition reported_position : Position :=
  mkPosition 127681061063811 278142357856131 28.


(** Two positions of ply 18 that the traversal reaches, and entries for
    them with different columns. *)
Definition collision_moves_1 : list Z :=
  [0; 0; 4; 5; 0; 2; 4; 1; 5; 0; 6; 4; 1; 6; 2; 1; 6; 1].
Definition collision_moves_2 : list Z :=
  [0; 0; 4; 0; 4; 1; 1; 1; 1; 2; 2; 4; 6; 5; 5; 6; 6; 0].

Definition collision_entries : list CriticalEntry :=
  [mkCriticalEntry (position_key (fold_left play_col collision_moves_1 empty_position)) 3;
   mkCriticalEntry (position_key (fold_left play_col collision_moves_2 empty_position)) 2].

(** Two entries with different non-zero partial keys. *)
Definition distinct_entries : list CriticalEntry :=
  [mkCriticalEntry (position_key reported_position) 3;
   mkCriticalEntry (position_key forced_block_position) 1].

(** * Verification *)

(** ** The solver against the game *)

(** C1 (fails on the code): [solve] is meant to return a score with the
    sign of the game-theoretic value.  On [lost_win_position], with a
    freshly initialised transposition table, it returns -2 (a loss) although
    the side to move wins under perfect play: the table stores the
    fail-soft result of a null-window search and later probes take it for
    the exact value, so the second iteration of [solve] reads back the
    first bound of the root. *)
Theorem solve_scores_a_win_as_a_loss :
  enumerator_path empty_position lost_win_moves = true /\
  invariants lost_win_position = true /\
  lost_win_position = mkPosition 97134980973236 278142351560639 29 /\
  spec_has_four (current lost_win_position) = false /\
  spec_has_four (Z.lxor (current lost_win_position) (mask lost_win_position)) = false /\
  fst <$> solve 64 lost_win_position ∅ = Some (-2) /\
  spec_outcome 13 lost_win_position = 1.
Proof.
  split; [vm_compute; reflexivity |]. split; [vm_compute; reflexivity |].
  split; [vm_compute; reflexivity |]. split; [vm_compute; reflexivity |].
  split; [vm_compute; reflexivity |]. split; vm_compute; reflexivity.
Qed.

(** ** Resource exhaustion *)

(** The allocator only consumes the next answer of the environment. *)
Lemma alloc_keeps (s : State) :
  critical_list (alloc s).2 = critical_list s /\
  stderr (alloc s).2 = stderr s /\
  critical_capacity (alloc s).2 = critical_capacity s /\
  file (alloc s).2 = file s.
Proof. unfold alloc. destruct (heap s); simpl; auto. Qed.

(** When [save_database] gives up on its arrays, [main] still cleans up
    and returns 0. *)
Lemma finish_after_table_failure fuel st st2 :
  save_database fuel st = Return () (eprint table_failure_message st2) ->
  stderr st2 = stderr st -> file st2 = file st ->
  exists st', finish fuel st = Return 0 st' /\
              stderr st' = stderr st ++ [table_failure_message] /\
              file st' = file st.
Proof.
  intros Hsave Herr Hfile. unfold finish. rewrite Hsave. cbn [bind].
  eexists. split; [reflexivity |]. cbn [stderr file tt_free set_tt eprint].
  now rewrite Herr, Hfile.
Qed.

Lemma main_after_enumeration fuel st0 st1 st :
  tt_init st0 = Return () st1 ->
  generate_positions fuel empty_position 0 st1 = Return () st ->
  main fuel st0 = finish fuel st.
Proof.
  intros Hinit Hrun. unfold main. rewrite Hinit. cbn [bind]. rewrite Hrun. reflexivity.
Qed.

(** C3, the failing run: with one critical entry collected and an
    environment that refuses the next allocation, the serializer's message
    goes to standard error, no file is written, and the process ends with
    status 0. *)
Lemma serializer_allocation_failure_exits_zero :
  heap exhausted_state = [false] /\
  exit_status (finish 64 exhausted_state) = Some 0 /\
  match finish 64 exhausted_state with
  | Return _ st => stderr st = [table_failure_message] /\ file st = None
  | _ => False
  end.
Proof. vm_compute. repeat split; reflexivity. Qed.

(** C3 (fails on the code): a failed allocation of the transposition table
    or of the critical-entry buffer reports to standard error and exits
    with status 1, as the policy asks.  When the allocation of either of
    the serializer's arrays fails, the failure is reported to standard
    error as well, but [save_database] returns without writing a file and
    [main] goes on to return 0: the process ends with the exit status of a
    successful run, unlike the two other paths. *)
Theorem allocation_failure_policy (fuel : nat) (st : State)
    (Hfail : (alloc st).1 = false) :
  tt_init st = Exit 1 (eprint tt_failure_message (alloc st).2) /\
  exit_status (main fuel st) = Some 1 /\
  (forall h c, critical_capacity st <= critical_count st ->
     exists st', add_critical h c st = Exit 1 st' /\
                 stderr st' = stderr st ++ [critical_failure_message]) /\
  (forall table_size,
     critical_count st <> 0 ->
     next_prime fuel (U64.mul (critical_count st) 2) = Some table_size ->
     save_database fuel st
       = Return () (eprint table_failure_message (alloc (alloc st).2).2) /\
     (exists st', finish fuel st = Return 0 st' /\
                  stderr st' = stderr st ++ [table_failure_message] /\
                  file st' = file st) /\
     (forall st0 st1,
        tt_init st0 = Return () st1 ->
        generate_positions fuel empty_position 0 st1 = Return () st ->
        exit_status (main fuel st0) = Some 0)) /\
  (forall st1 table_size,
     critical_count st1 <> 0 ->
     next_prime fuel (U64.mul (critical_count st1) 2) = Some table_size ->
     alloc st1 = (true, st) ->
     save_database fuel st1
       = Return () (eprint table_failure_message (alloc st).2) /\
     (exists st', finish fuel st1 = Return 0 st' /\
                  stderr st' = stderr st1 ++ [table_failure_message] /\
                  file st' = file st1) /\
     (forall st0 st2,
        tt_init st0 = Return () st2 ->
        generate_positions fuel empty_position 0 st2 = Return () st1 ->
        exit_status (main fuel st0) = Some 0)).
Proof.
  assert (Hzero : forall s, (exists st', finish fuel s = Return 0 st' /\
                                         stderr st' = stderr s ++ [table_failure_message] /\
                                         file st' = file s) ->
            forall st0 st1, tt_init st0 = Return () st1 ->
              generate_positions fuel empty_position 0 st1 = Return () s ->
              exit_status (main fuel st0) = Some 0).
  { intros s (st' & Hfinish & _) st0 st1 Hinit Hrun.
    now rewrite (main_after_enumeration fuel st0 st1 s Hinit Hrun), Hfinish. }
  split; [| split; [| split; [| split]]].
  - unfold tt_init. destruct (alloc st) as [ok st1]. simpl in Hfail. subst ok.
    reflexivity.
  - unfold main, tt_init. destruct (alloc st) as [ok st1]. simpl in Hfail. subst ok.
    reflexivity.
  - intros h c Hcap. unfold add_critical.
    destruct (Z.geb_spec (critical_count st) (critical_capacity st)) as [_ | Hlt];
      [| lia].
    destruct (alloc_keeps st) as (_ & Herr & _).
    destruct (alloc st) as [ok st1]. simpl in Hfail, Herr. subst ok.
    eexists. split; [reflexivity |]. simpl. now rewrite Herr.
  - intros table_size Hcount Hprime.
    assert (Hsave : save_database fuel st
                    = Return () (eprint table_failure_message (alloc (alloc st).2).2)).
    { unfold save_database.
      destruct (Z.eqb_spec (critical_count st) 0) as [| _]; [contradiction |].
      rewrite Hprime.
      destruct (alloc st) as [ok st1]. simpl in Hfail. subst ok. simpl.
      destruct (alloc st1) as [ok2 st2]. reflexivity. }
    assert (Hfinish : exists st', finish fuel st = Return 0 st' /\
                        stderr st' = stderr st ++ [table_failure_message] /\
                        file st' = file st).
    { apply (finish_after_table_failure fuel st _ Hsave).
      - destruct (alloc_keeps (alloc st).2) as (_ & -> & _).
        now destruct (alloc_keeps st) as (_ & -> & _).
      - destruct (alloc_keeps (alloc st).2) as (_ & _ & _ & ->).
        now destruct (alloc_keeps st) as (_ & _ & _ & ->). }
    split; [exact Hsave | split; [exact Hfinish | now apply Hzero]].
  - intros st1 table_size Hcount Hprime Hfirst.
    assert (Hsave : save_database fuel st1
                    = Return () (eprint table_failure_message (alloc st).2)).
    { unfold save_database.
      destruct (Z.eqb_spec (critical_count st1) 0) as [| _]; [contradiction |].
      rewrite Hprime, Hfirst.
      destruct (alloc st) as [ok st2]. simpl in Hfail. subst ok. reflexivity. }
    assert (Hfinish : exists st', finish fuel st1 = Return 0 st' /\
                        stderr st' = stderr st1 ++ [table_failure_message] /\
                        file st' = file st1).
    { apply (finish_after_table_failure fuel st1 _ Hsave).
      - destruct (alloc_keeps st) as (_ & -> & _).
        destruct (alloc_keeps st1) as (_ & Herr & _). now rewrite Hfirst in Herr.
      - destruct (alloc_keeps st) as (_ & _ & _ & ->).
        destruct (alloc_keeps st1) as (_ & _ & _ & Hfile). now rewrite Hfirst in Hfile. }
    split; [exact Hsave | split; [exact Hfinish | now apply Hzero]].
Qed.

Lemma allocation_failure_policy_witness :
  tt_init exhausted_state
    = Exit 1 (eprint tt_failure_message (alloc exhausted_state).2) /\
  save_database 64 exhausted_state
    = Return () (eprint table_failure_message (alloc (alloc exhausted_state).2).2) /\
  exists st', finish 64 exhausted_state = Return 0 st' /\
              stderr st' = stderr exhausted_state ++ [table_failure_message] /\
              file st' = file exhausted_state.
Proof.
  destruct (allocation_failure_policy 64 exhausted_state eq_refl)
    as (Hinit & _ & _ & Hsave & _).
  split; [exact Hinit |].
  destruct (Hsave 2) as (Hreturn & Hfinish & _);
    [vm_compute; discriminate | vm_compute; reflexivity |].
  split; [exact Hreturn | exact Hfinish].
Defined.

(** ** The classifier and the enumerator *)

(** Neither the classifier nor the buffer growth touches the entries
    already collected. *)
Lemma add_critical_appends h c st st' :
  add_critical h c st = Return () st' ->
  critical_list st' = critical_list st ++ [mkCriticalEntry h (to_uint8 c)].
Proof.
  unfold add_critical, alloc. intros H.
  destruct (critical_count st >=? critical_capacity st).
  - destruct (heap st) as [| [|] rest]; cbn [bind] in H; inversion H; reflexivity.
  - cbn [bind] in H. inversion H. reflexivity.
Qed.

(** The winning columns recorded by the move loop are columns of the loop
    that are playable and hold a cell of [possible]. *)
Lemma evaluate_moves_winning fuel p possible cols :
  forall mc tbl mc' tbl',
    evaluate_moves fuel p possible cols mc tbl = Some (mc', tbl') ->
    forall c, In c (winning_cols mc') ->
      In c (winning_cols mc) \/
      (In c cols /\ can_play p c = true /\ Z.land possible (column_mask_col c) <> 0).
Proof.
  induction cols as [| col cols IH]; intros mc tbl mc' tbl' H c Hc;
    cbn [evaluate_moves] in H.
  - inversion H; subst. now left.
  - assert (Hlater : In c (winning_cols mc) \/
              (In c cols /\ can_play p c = true /\
               Z.land possible (column_mask_col c) <> 0) ->
            In c (winning_cols mc) \/
              (In c (col :: cols) /\ can_play p c = true /\
               Z.land possible (column_mask_col c) <> 0)).
    { intros [? | (? & ? & ?)]; [now left | right]. split; [now right | now split]. }
    destruct (can_play p col) eqn:Hplay; cbn [negb] in H;
      [| exact (Hlater (IH _ _ _ _ H c Hc))].
    destruct (Z.eqb_spec (Z.land possible (column_mask_col col)) 0) as [Hz | Hnz];
      [exact (Hlater (IH _ _ _ _ H c Hc)) |].
    destruct (solve fuel (play_col p col) tbl) as [[r tbl1] |]; [| discriminate].
    destruct (IH _ _ _ _ H c Hc) as [Hold | Hnew]; [| exact (Hlater (or_intror Hnew))].
    destruct (- r >? 0); [| destruct (- r =? 0)]; cbn [winning_cols] in Hold;
      try (now left).
    apply in_app_or in Hold. destruct Hold as [? | [<- | []]]; [now left |].
    right. split; [now left | now split].
Qed.

Lemma is_obvious_move_spec p col :
  is_obvious_move p col = win_in_one p col || forced_block p col.
Proof.
  unfold is_obvious_move, win_in_one, forced_block.
  destruct (negb _); [reflexivity |]. now destruct (negb _).
Qed.

Lemma analyze_position_eq fuel p st :
  analyze_position fuel p st =
  if (ply p <? MIN_PLY) || (ply p >? MAX_PLY)
  then Return (-1) (count_skipped (count_analyzed st))
  else if can_win_next p then Return (-1) (count_skipped (count_analyzed st))
  else if non_losing_moves p =? 0 then Return (-1) (count_skipped (count_analyzed st))
  else match evaluate_moves fuel p (non_losing_moves p) columns
                            (mkMoveCounts [] 0 0) (tt st) with
       | None => OutOfFuel
       | Some (mc, tbl) => classify p (count_analyzed st) mc tbl
       end.
Proof. reflexivity. Qed.

Lemma return_inj {A : Type} (a b : A) (s s' : State) :
  Return a s = Return b s' -> a = b /\ s = s'.
Proof. intros H. injection H as -> ->. now split. Qed.

Lemma classify_inv p st mc tbl r st' :
  classify p st mc tbl = Return r st' ->
  critical_list st' = critical_list st /\
  (r = -1 \/ (winning_cols mc = [r] /\ is_obvious_move p r = false)).
Proof.
  unfold classify. intros H.
  destruct (winning_cols mc) as [| w [| w' ws]].
  - apply return_inj in H. destruct H as [<- <-]. split; [reflexivity | now left].
  - destruct (is_obvious_move p w) eqn:Hobv; cbn [negb] in H;
      apply return_inj in H; destruct H as [<- <-].
    + split; [reflexivity | now left].
    + split; [reflexivity | right; now split].
  - apply return_inj in H. destruct H as [<- <-]. split; [reflexivity | now left].
Qed.

Ltac step_if H := rewrite ?orb_true_l, ?orb_false_l in H.

(** Either a guard of the classifier rejects the position, or the outcome
    of the move loop is classified. *)
Lemma analyze_position_cases fuel p st mc tbl :
  evaluate_moves fuel p (non_losing_moves p) columns (mkMoveCounts [] 0 0) (tt st)
  = Some (mc, tbl) ->
  analyze_position fuel p st = Return (-1) (count_skipped (count_analyzed st)) \/
  analyze_position fuel p st = classify p (count_analyzed st) mc tbl.
Proof.
  intros Hloop. rewrite analyze_position_eq, Hloop.
  destruct (ply p <? MIN_PLY); rewrite ?orb_true_l, ?orb_false_l; [now left |].
  destruct (ply p >? MAX_PLY); [now left |].
  destruct (can_win_next p); [now left |].
  destruct (non_losing_moves p =? 0); [now left |].
  now right.
Qed.

(** What a run of the classifier tells. *)
Lemma analyze_position_inv fuel p st r st' :
  analyze_position fuel p st = Return r st' ->
  critical_list st' = critical_list st /\
  (r = -1 \/
   (MIN_PLY <= ply p <= MAX_PLY /\ can_win_next p = false /\
    is_obvious_move p r = false /\
    exists mc tbl,
      evaluate_moves fuel p (non_losing_moves p) columns (mkMoveCounts [] 0 0) (tt st)
      = Some (mc, tbl) /\ winning_cols mc = [r])).
Proof.
  rewrite analyze_position_eq. intros H.
  assert (Hskip : Return (-1) (count_skipped (count_analyzed st)) = Return r st' ->
            critical_list st' = critical_list st /\ r = -1).
  { intros Hs. apply return_inj in Hs. destruct Hs as [<- <-]. now split. }
  destruct (ply p <? MIN_PLY) eqn:Hlo; step_if H;
    [destruct (Hskip H); split; [assumption | now left] |].
  destruct (ply p >? MAX_PLY) eqn:Hhi; step_if H;
    [destruct (Hskip H); split; [assumption | now left] |].
  destruct (can_win_next p) eqn:Hwin; step_if H;
    [destruct (Hskip H); split; [assumption | now left] |].
  destruct (non_losing_moves p =? 0) eqn:Hnone; step_if H;
    [destruct (Hskip H); split; [assumption | now left] |].
  destruct (evaluate_moves fuel p (non_losing_moves p) columns (mkMoveCounts [] 0 0)
                           (tt st)) as [[mc tbl] |]; [| discriminate].
  destruct (classify_inv _ _ _ _ _ _ H) as [Hlist [-> | [Hwins Hobv]]].
  - split; [exact Hlist | now left].
  - split; [exact Hlist | right].
    apply Z.ltb_ge in Hlo. rewrite Z.gtb_ltb in Hhi. apply Z.ltb_ge in Hhi.
    split; [lia |]. split; [reflexivity |]. split; [exact Hobv |].
    exists mc, tbl. split; [reflexivity | exact Hwins].
Qed.

Lemma analyze_position_critical_list fuel p st r st' :
  analyze_position fuel p st = Return r st' ->
  critical_list st' = critical_list st.
Proof. intros H. now destruct (analyze_position_inv _ _ _ _ _ H). Qed.

(** C6: when the unique winning column found by the move loop of the
    classifier is obvious (its drop cell completes four-in-a-row for the
    mover, or is a winning cell of the opponent), [analyze_position]
    rejects the position and the enumerator's visit adds no entry to the
    critical buffer; and a column that [analyze_position] does return is
    never obvious. *)
Theorem obvious_winning_move_rejected
    (fuel : nat) (p : Position) (st : State) (mc : MoveCounts) (tbl : TT) (w : Z)
    (Hloop : evaluate_moves fuel p (non_losing_moves p) columns (mkMoveCounts [] 0 0)
                            (tt st) = Some (mc, tbl))
    (Hwins : winning_cols mc = [w])
    (Hobvious : win_in_one p w = true \/ forced_block p w = true) :
  (exists st', analyze_position fuel p st = Return (-1) st') /\
  (exists st', visit fuel p st = Return () st' /\ critical_list st' = critical_list st) /\
  (forall q st0 r st1, analyze_position fuel q st0 = Return r st1 -> r <> -1 ->
     win_in_one q r = false /\ forced_block q r = false).
Proof.
  assert (Hrej : exists st', analyze_position fuel p st = Return (-1) st').
  { destruct (analyze_position_cases fuel p st mc tbl Hloop) as [-> | ->];
      [eexists; reflexivity |].
    unfold classify. rewrite Hwins, is_obvious_move_spec.
    destruct Hobvious as [-> | ->]; rewrite ?orb_true_l, ?orb_true_r;
      cbn [negb]; eexists; reflexivity. }
  split; [exact Hrej |]. split.
  - destruct Hrej as [st' Hrej]. unfold visit.
    destruct (_ && _); [| eexists; split; reflexivity].
    rewrite Hrej. unfold bind.
    replace (-1 >=? 0) with false by reflexivity.
    eexists. split; [reflexivity |].
    eapply analyze_position_critical_list, Hrej.
  - intros q st0 r st1 H Hr.
    destruct (analyze_position_inv _ _ _ _ _ H) as [_ [-> | (_ & _ & Hobv & _)]];
      [contradiction |].
    rewrite is_obvious_move_spec in Hobv. now apply orb_false_iff in Hobv.
Qed.

Lemma obvious_winning_move_rejected_witness :
  (exists st', analyze_position 64 forced_block_position (initial_state [] true)
               = Return (-1) st') /\
  (exists st', visit 64 forced_block_position (initial_state [] true) = Return () st' /\
               critical_list st' = []).
Proof.
  assert (Hloop : exists mc tbl,
             evaluate_moves 64 forced_block_position
               (non_losing_moves forced_block_position) columns (mkMoveCounts [] 0 0)
               (tt (initial_state [] true)) = Some (mc, tbl) /\
             winning_cols mc = [1]).
  { vm_compute. eexists. eexists. split; reflexivity. }
  destruct Hloop as (mc & tbl & Hloop & Hwins).
  destruct (obvious_winning_move_rejected 64 forced_block_position
              (initial_state [] true) mc tbl 1 Hloop Hwins) as (Ha & Hv & _).
  - right. vm_compute. reflexivity.
  - split; [exact Ha | exact Hv].
Defined.

Lemma enumerated_trans p q r : enumerated p q -> enumerated q r -> enumerated p r.
Proof.
  intros Hpq Hqr. induction Hqr; [exact Hpq |].
  now apply enumerated_child.
Qed.

Lemma window_entry_child root q e :
  enumerated root q -> window_entry q e -> window_entry root e.
Proof.
  intros Hq (q' & c & fuel & st1 & st2 & Henum & Hrest).
  exists q', c, fuel, st1, st2. split; [| exact Hrest].
  eapply enumerated_trans; eassumption.
Qed.

Lemma extends_refl root st : extends root st st.
Proof. exists []. rewrite app_nil_r. split; [reflexivity | constructor]. Qed.

Lemma extends_trans root st1 st2 st3 :
  extends root st1 st2 -> extends root st2 st3 -> extends root st1 st3.
Proof.
  intros (new1 & Hl1 & Hf1) (new2 & Hl2 & Hf2). exists (new1 ++ new2). split.
  - rewrite Hl2, Hl1. now rewrite app_assoc.
  - apply Forall_app. now split.
Qed.

Lemma visit_entries fuel p st st' :
  visit fuel p st = Return () st' -> extends p st st'.
Proof.
  unfold visit. intros H.
  destruct (Z.geb_spec (ply p) MIN_PLY) as [Hlo | Hlo];
    [destruct (Z.leb_spec (ply p) MAX_PLY) as [Hhi | Hhi] |]; cbn [andb] in H;
    try (inversion H; subst; apply extends_refl).
  destruct (analyze_position fuel p st) as [c st1 | |] eqn:Han; try discriminate.
  cbn [bind] in H. pose proof (analyze_position_critical_list _ _ _ _ _ Han) as Hsame.
  destruct (Z.geb_spec c 0) as [Hc | Hc].
  - exists [mkCriticalEntry (position_key p) (to_uint8 c)]. split.
    + rewrite (add_critical_appends _ _ _ _ H). now rewrite Hsame.
    + constructor; [| constructor].
      exists p, c, fuel, st, st1.
      split; [constructor |]. split; [lia |]. split; [exact Han |].
      split; [lia | reflexivity].
  - inversion H; subst. exists []. rewrite app_nil_r. split; [exact Hsame | constructor].
Qed.

Lemma generate_children_entries rec p depth
    (Hrec : forall q d st st', rec q d st = Return () st' -> extends q st st')
    (Hply : ply p < MAX_PLY) (Hwin : can_win_next p = false) :
  forall cols st st', (forall c, In c cols -> In c columns) ->
    generate_children rec p depth cols st = Return () st' ->
    extends p st st'.
Proof.
  induction cols as [| col cols IH]; intros st st' Hsub H;
    cbn [generate_children] in H.
  - inversion H; subst. apply extends_refl.
  - assert (Hsub' : forall c, In c cols -> In c columns)
      by (intros c Hc; apply Hsub; now right).
    destruct (can_play p col) eqn:Hplay; cbn [negb] in H; [| exact (IH _ _ Hsub' H)].
    destruct (rec (play_col p col) (depth + 1) st) as [[] st1 | |] eqn:Hchild;
      try discriminate.
    cbn [bind] in H.
    apply (extends_trans _ _ st1); [| exact (IH _ _ Hsub' H)].
    destruct (Hrec _ _ _ _ Hchild) as (new1 & Hl1 & Hf1).
    exists new1. split; [exact Hl1 |].
    eapply Forall_impl; [exact Hf1 |]. intros e He.
    eapply window_entry_child; [| exact He].
    apply enumerated_child; [constructor | assumption | assumption | | assumption].
    apply Hsub. now left.
Qed.

Lemma generate_positions_eq fuel p depth st :
  generate_positions (S fuel) p depth st =
  bind (visit fuel p st) (fun _ st =>
    if ply p >=? MAX_PLY then Return () st
    else if can_win_next p then Return () st
    else generate_children (generate_positions fuel) p depth columns st).
Proof. reflexivity. Qed.

Lemma generate_positions_entries fuel :
  forall p depth st st',
    generate_positions fuel p depth st = Return () st' -> extends p st st'.
Proof.
  induction fuel as [| fuel IH]; intros p depth st st' H; [discriminate |].
  rewrite generate_positions_eq in H.
  destruct (visit fuel p st) as [[] st1 | |] eqn:Hvisit; try discriminate.
  cbn [bind] in H. apply (extends_trans _ _ st1); [exact (visit_entries _ _ _ _ Hvisit) |].
  destruct (Z.geb_spec (ply p) MAX_PLY) as [Hply | Hply];
    [inversion H; subst; apply extends_refl |].
  destruct (can_win_next p) eqn:Hwin; [inversion H; subst; apply extends_refl |].
  exact (generate_children_entries (generate_positions fuel) p depth IH Hply Hwin
           columns st1 st' (fun c Hc => Hc) H).
Qed.

(** C7: every entry that a run of [generate_positions] adds to the
    critical buffer was recorded for a visited position whose ply lies in
    [[MIN_PLY, MAX_PLY]] = [15, 28], and the traversal does not descend
    from a position of ply at least [MAX_PLY] or in which the side to move
    can win immediately: there the call does no more than visit the
    position itself. *)
Theorem entries_within_ply_window (fuel : nat) (p : Position) (depth : Z)
    (st st' : State)
    (Hrun : generate_positions (S fuel) p depth st = Return () st') :
  (MIN_PLY = 15 /\ MAX_PLY = 28) /\
  (exists new, critical_list st' = critical_list st ++ new /\
     Forall (fun e => exists q c fuel' st1 st2,
                 enumerated p q /\ 15 <= ply q <= 28 /\
                 analyze_position fuel' q st1 = Return c st2 /\ 0 <= c /\
                 e = mkCriticalEntry (position_key q) (to_uint8 c)) new) /\
  (MAX_PLY <= ply p \/ can_win_next p = true -> visit fuel p st = Return () st').
Proof.
  split; [split; reflexivity |]. split.
  - exact (generate_positions_entries _ _ _ _ _ Hrun).
  - intros Hprune. rewrite generate_positions_eq in Hrun.
    destruct (visit fuel p st) as [[] st1 | |]; try discriminate.
    cbn [bind] in Hrun. destruct (Z.geb_spec (ply p) MAX_PLY) as [_ | Hlt].
    + exact Hrun.
    + destruct Hprune as [Hge | Hwin]; [lia |]. rewrite Hwin in Hrun. exact Hrun.
Qed.

Lemma entries_within_ply_window_witness :
  exists st',
    generate_positions 65 reported_position 28 (initial_state [] true) = Return () st' /\
    critical_list st' = [mkCriticalEntry (position_key reported_position) 3] /\
    visit 64 reported_position (initial_state [] true) = Return () st'.
Proof.
  assert (Hrun : exists st',
             generate_positions 65 reported_position 28 (initial_state [] true)
             = Return () st' /\
             critical_list st' = [mkCriticalEntry (position_key reported_position) 3]).
  { vm_compute. eexists. split; reflexivity. }
  destruct Hrun as (st' & Hrun & Hlist). exists st'.
  destruct (entries_within_ply_window 64 reported_position 28 _ st' Hrun)
    as (_ & _ & Hprune).
  split; [exact Hrun |]. split; [exact Hlist |].
  apply Hprune. left. vm_compute. discriminate.
Defined.

(** ** Primes for the table size *)

Section Primes.

Lemma u64_mul_small i : 0 <= i < 2 ^ 32 -> U64.mul i i = i * i.
Proof.
  intros Hi. unfold U64.mul, U64.wrap, U64.modulus.
  apply Z.mod_small. nia.
Qed.

Lemma u64_add_small a b : 0 <= a -> 0 <= b -> a + b < 2 ^ 64 -> U64.add a b = a + b.
Proof.
  intros Ha Hb Hab. unfold U64.add, U64.wrap, U64.modulus.
  apply Z.mod_small. lia.
Qed.

(** The loop answers [false] only on a divisor, and [true] only when no
    candidate [i, i+2, i+4, ...] up to the square root divides [n]. *)
Lemma is_prime_loop_false fuel :
  forall n i, uint32_range n -> 3 <= i <= 65537 ->
    is_prime_loop fuel n i = Some false ->
    exists d, 3 <= d /\ d * d <= n /\ (d | n).
Proof.
  induction fuel as [| fuel IH]; intros n i Hn Hi H; simpl in H;
    rewrite u64_mul_small in H by (unfold uint32_range in *; lia);
    destruct (Z.leb_spec (i * i) n) as [Hle | Hgt]; try discriminate.
  destruct (Z.eqb_spec (n mod i) 0) as [Hdiv | Hndiv].
  - exists i. repeat split; try lia. apply Z.mod_divide; lia.
  - rewrite u64_add_small in H by lia.
    apply (IH n (i + 2)); try assumption.
    unfold uint32_range in Hn. nia.
Qed.

Lemma is_prime_loop_true fuel :
  forall n i, uint32_range n -> 3 <= i <= 65537 ->
    is_prime_loop fuel n i = Some true ->
    forall k, 0 <= k -> (i + 2 * k) * (i + 2 * k) <= n -> ~ (i + 2 * k | n).
Proof.
  induction fuel as [| fuel IH]; intros n i Hn Hi H k Hk Hsq; simpl in H;
    rewrite u64_mul_small in H by (unfold uint32_range in *; lia);
    destruct (Z.leb_spec (i * i) n) as [Hle | Hgt]; try discriminate; try nia.
  destruct (Z.eqb_spec (n mod i) 0) as [Hdiv | Hndiv]; [discriminate |].
  rewrite u64_add_small in H by lia.
  destruct (Z.eq_dec k 0) as [-> | Hk0].
  - rewrite Z.mul_0_r, Z.add_0_r. intros Hd. apply Hndiv.
    apply Z.mod_divide in Hd; lia.
  - replace (i + 2 * k) with (i + 2 + 2 * (k - 1)) in * by lia.
    apply (IH n (i + 2)); try assumption; try lia.
    unfold uint32_range in Hn. nia.
Qed.

Lemma is_prime_loop_total fuel :
  forall n i, uint32_range n -> 3 <= i <= 65537 -> 65538 - i <= Z.of_nat fuel ->
    exists b, is_prime_loop fuel n i = Some b.
Proof.
  induction fuel as [| fuel IH]; intros n i Hn Hi Hfuel; simpl;
    rewrite u64_mul_small by (unfold uint32_range in *; lia);
    destruct (Z.leb_spec (i * i) n) as [Hle | Hgt]; eauto; try lia.
  destruct (n mod i =? 0); [eauto |].
  rewrite u64_add_small by lia.
  apply IH; try assumption; try lia.
  unfold uint32_range in Hn. nia.
Qed.

(** A proper divisor comes with one between 2 and the square root. *)
Lemma small_divisor n d :
  1 < d < n -> (d | n) -> exists d', 1 < d' /\ d' * d' <= n /\ (d' | n).
Proof.
  intros Hd [q Hq].
  assert (Hqpos : 1 < q) by nia.
  destruct (Z_le_gt_dec d q) as [Hdq | Hdq].
  - exists d. repeat split; try lia; try nia. exists q. exact Hq.
  - exists q. repeat split; try lia; try nia. exists d. lia.
Qed.

Lemma is_prime_correct fuel n b :
  uint32_range n -> is_prime fuel n = Some b -> (b = true <-> Z.prime n).
Proof.
  intros Hn H. unfold is_prime in H.
  destruct (Z.ltb_spec n 2) as [Hlt | Hge].
  { inversion H; subst. split; [discriminate |].
    intros Hp. apply Z.prime_ge_2 in Hp. lia. }
  destruct (Z.eqb_spec n 2) as [-> | Hne2].
  { inversion H; subst. split; [intros _; exact Z.prime_2 | reflexivity]. }
  destruct (Z.eqb_spec (n mod 2) 0) as [Heven | Hodd].
  { inversion H; subst. split; [discriminate |].
    intros Hp. exfalso. apply (proj2 Hp 2); [lia |].
    apply Z.mod_divide; lia. }
  destruct b.
  - split; [intros _ | reflexivity].
    split; [lia |]. intros d0 Hd0 Hdiv0.
    destruct (small_divisor n d0 Hd0 Hdiv0) as (d & Hd1 & Hd2 & Hd3).
    destruct (Z.eq_dec (d mod 2) 0) as [Hde | Hdo].
    + apply Hodd. apply Z.mod_divide; [lia |].
      apply Z.divide_trans with d; [| exact Hd3].
      apply Z.mod_divide; lia.
    + assert (Hd' : 3 <= d).
      { destruct (Z.eq_dec d 2) as [-> | ?]; [now compute in Hdo | lia]. }
      assert (Hd : d = 3 + 2 * ((d - 3) / 2)).
      { pose proof (Z.mod_pos_bound d 2 ltac:(lia)).
        pose proof (Z.div_mod d 2 ltac:(lia)).
        pose proof (Z.div_mod (d - 3) 2 ltac:(lia)).
        pose proof (Z.mod_pos_bound (d - 3) 2 ltac:(lia)).
        lia. }
      rewrite Hd in Hd2, Hd3.
      eapply (is_prime_loop_true fuel n 3 Hn ltac:(lia) H ((d - 3) / 2));
        [| exact Hd2 | exact Hd3].
      apply Z.div_pos; lia.
  - split; [discriminate | intros Hp; exfalso].
    destruct (is_prime_loop_false fuel n 3 Hn ltac:(lia) H) as (d & Hd1 & Hd2 & Hd3).
    apply (proj2 Hp d); [nia | exact Hd3].
Qed.

Lemma is_prime_total fuel n :
  uint32_range n -> 65535 <= Z.of_nat fuel -> exists b, is_prime fuel n = Some b.
Proof.
  intros Hn Hfuel. unfold is_prime.
  destruct (n <? 2); [eauto |]. destruct (n =? 2); [eauto |].
  destruct (n mod 2 =? 0); [eauto |].
  apply is_prime_loop_total; [exact Hn | lia | lia].
Qed.

Lemma largest_prime32_prime : Z.prime largest_prime32.
Proof.
  apply (is_prime_correct (Z.to_nat 40000) largest_prime32 true).
  - unfold uint32_range, largest_prime32. lia.
  - vm_compute. reflexivity.
  - reflexivity.
Qed.

(** Whatever the budget, an answer of [next_prime] is the least prime from
    [n] on. *)
Lemma next_prime_least fuel :
  forall n t, 0 <= n <= largest_prime32 -> next_prime fuel n = Some t ->
    Z.prime t /\ n <= t <= largest_prime32 /\
    forall q, Z.prime q -> n <= q -> t <= q.
Proof.
  induction fuel as [| fuel IH]; intros n t Hn H; [discriminate |].
  cbn [next_prime] in H.
  assert (Hsmall : uint32_range n) by (unfold uint32_range, largest_prime32 in *; lia).
  destruct (is_prime (S fuel) n) as [[|] |] eqn:Hp; try discriminate.
  - inversion H; subst. apply is_prime_correct in Hp; [| exact Hsmall].
    split; [now apply Hp |]. split; [lia | intros; lia].
  - apply is_prime_correct in Hp; [| exact Hsmall].
    assert (Hnp : ~ Z.prime n) by (intros Hq; apply Hp in Hq; discriminate).
    assert (Hlt : n < largest_prime32).
    { destruct (Z.eq_dec n largest_prime32) as [-> | ?]; [| lia].
      exfalso. apply Hnp, largest_prime32_prime. }
    rewrite u64_add_small in H by (unfold largest_prime32 in *; lia).
    destruct (IH (n + 1) t ltac:(lia) H) as (Hpt & Hrange & Hleast).
    split; [exact Hpt |]. split; [lia |].
    intros q Hq Hnq. destruct (Z.eq_dec q n) as [-> | ?]; [contradiction |].
    apply Hleast; [exact Hq | lia].
Qed.

Lemma next_prime_total :
  forall (k : nat) n t fuel,
    0 <= n -> Z.prime t -> t <= largest_prime32 -> n + Z.of_nat k = t ->
    65535 + Z.of_nat k < Z.of_nat fuel -> exists t', next_prime fuel n = Some t'.
Proof.
  induction k as [| k IH]; intros n t fuel Hn Ht Hmax Hk Hfuel;
    (destruct fuel as [| fuel]; [lia |]); cbn [next_prime];
    assert (Hsmall : uint32_range n) by (unfold uint32_range, largest_prime32 in *; lia);
    destruct (is_prime_total (S fuel) n Hsmall ltac:(lia)) as [b Hb];
    pose proof (is_prime_correct _ _ _ Hsmall Hb) as Hcorrect;
    rewrite Hb; destruct b; eauto.
  - exfalso. replace n with t in Hcorrect by lia.
    apply Hcorrect in Ht. discriminate.
  - rewrite u64_add_small by (unfold largest_prime32 in *; lia).
    apply (IH (n + 1) t); try assumption; lia.
Qed.

End Primes.

(** From [n] on there is a least prime, [next_prime] finds it with enough
    budget, and finds nothing else with any budget. *)
Lemma least_prime_from n :
  0 <= n <= largest_prime32 ->
  exists t,
    Z.prime t /\ n <= t <= largest_prime32 /\
    (forall q, Z.prime q -> n <= q -> t <= q) /\
    (forall fuel, 65535 + (t - n) < Z.of_nat fuel -> next_prime fuel n = Some t) /\
    (forall fuel t', next_prime fuel n = Some t' -> t' = t).
Proof.
  intros Hrange.
  destruct (next_prime_total (Z.to_nat (largest_prime32 - n)) n largest_prime32
              (Z.to_nat (65536 + (largest_prime32 - n)))
              ltac:(lia) largest_prime32_prime ltac:(lia) ltac:(lia) ltac:(lia))
    as [t Ht].
  destruct (next_prime_least _ _ _ Hrange Ht) as (Hprime & Hbounds & Hleast).
  assert (Hany : forall fuel t', next_prime fuel n = Some t' -> t' = t).
  { intros fuel t' Ht'.
    destruct (next_prime_least _ _ _ Hrange Ht') as (Hprime' & Hbounds' & Hleast').
    pose proof (Hleast t' Hprime' ltac:(lia)).
    pose proof (Hleast' t Hprime ltac:(lia)). lia. }
  exists t. split; [exact Hprime |]. split; [exact Hbounds |]. split; [exact Hleast |].
  split; [| exact Hany].
  intros fuel Hfuel.
  destruct (next_prime_total (Z.to_nat (t - n)) n t fuel
              ltac:(lia) Hprime ltac:(lia) ltac:(lia) ltac:(lia)) as [t' Ht'].
  rewrite Ht'. f_equal. eapply Hany, Ht'.
Qed.

(** The [table_size] field of a written file is the table size cast to
    [uint32_t]. *)
Lemma save_database_table_size_field fuel st st' db :
  file st = None -> save_database fuel st = Return () st' -> file st' = Some db ->
  exists t, next_prime fuel (U64.mul (critical_count st) 2) = Some t /\
            db_table_size db = to_uint32 t.
Proof.
  intros Hnone Hsave Hfile. unfold save_database in Hsave.
  destruct (critical_count st =? 0);
    [apply return_inj in Hsave; destruct Hsave as [_ <-]; congruence |].
  destruct (next_prime fuel _) as [t |]; [| discriminate].
  exists t. split; [reflexivity |].
  destruct (alloc_keeps st) as (_ & _ & _ & Hf1).
  destruct (alloc st) as [ok1 st1]. cbn [snd] in Hf1.
  destruct (alloc_keeps st1) as (_ & _ & _ & Hf2).
  destruct (alloc st1) as [ok2 st2]. cbn [snd] in Hf2.
  destruct (negb ok1 || negb ok2).
  { apply return_inj in Hsave. destruct Hsave as [_ <-].
    cbn [file eprint] in Hfile. congruence. }
  destruct (insert_all _ _ _ _) as [[ks vs] |]; [| discriminate].
  destruct (negb (fopen_ok st2)).
  { apply return_inj in Hsave. destruct Hsave as [_ <-].
    cbn [file eprint] in Hfile. congruence. }
  apply return_inj in Hsave. destruct Hsave as [_ <-].
  cbn [file] in Hfile. injection Hfile as <-. reflexivity.
Qed.




(** ** Bitboard reasoning *)

Local Open Scope bool_scope.

(** Linear arithmetic with [/] and [mod] by constants. *)
Ltac dlia := Z.to_euclidean_division_equations; lia.

Ltac bitwise i Hi :=
  apply Z.bits_inj'; intros i Hi;
  rewrite ?Z.land_spec, ?Z.lor_spec, ?Z.lxor_spec.

Lemma subset_bit x y i :
  Z.land x y = x -> Z.testbit x i = true -> Z.testbit y i = true.
Proof.
  intros H Hx. rewrite <- H, Z.land_spec in Hx.
  apply andb_true_iff in Hx. tauto.
Qed.

Lemma subset_nonneg x y : 0 <= y -> Z.land x y = x -> 0 <= x.
Proof. intros Hy <-. apply Z.land_nonneg. now right. Qed.

Lemma subset_trans x y z : Z.land x y = x -> Z.land y z = y -> Z.land x z = x.
Proof.
  intros Hxy Hyz. rewrite <- Hxy, <- Z.land_assoc. now rewrite Hyz.
Qed.

Lemma land_pow2_testbit x j : 0 <= j -> (Z.land x (2 ^ j) =? 0) = negb (Z.testbit x j).
Proof.
  intros Hj. destruct (Z.testbit x j) eqn:Hb; simpl.
  - apply Z.eqb_neq. intros H.
    assert (Hbit : Z.testbit (Z.land x (2 ^ j)) j = true)
      by (rewrite Z.land_spec, Hb, Z.pow2_bits_true by lia; reflexivity).
    rewrite H, Z.bits_0 in Hbit. discriminate.
  - apply Z.eqb_eq. bitwise i Hi. rewrite Z.bits_0, Z.pow2_bits_eqb by lia.
    destruct (Z.eqb_spec j i) as [<- | ?]; [rewrite Hb |]; now rewrite ?andb_false_r.
Qed.



Lemma land_le_l a b : 0 <= a -> Z.land a b <= a.
Proof.
  intros Ha.
  assert (Hdis : Z.land (Z.ldiff a b) (Z.land a b) = 0).
  { bitwise i Hi. rewrite Z.ldiff_spec, Z.bits_0.
    destruct (Z.testbit a i), (Z.testbit b i); reflexivity. }
  pose proof (Z.lor_ldiff_and a b) as Hsplit.
  rewrite <- (Z.lxor_lor _ _ Hdis), <- (Z.add_nocarry_lxor _ _ Hdis) in Hsplit.
  assert (0 <= Z.ldiff a b) by (apply Z.ldiff_nonneg; now left).
  lia.
Qed.

(** The part of a subset of [y] below bit [k] is at most the part of [y]. *)
Lemma subset_low_part x y k :
  0 <= k -> 0 <= y -> Z.land x y = x -> x mod 2 ^ k <= y mod 2 ^ k.
Proof.
  intros Hk Hy Hsub. rewrite <- !Z.land_ones by exact Hk.
  rewrite <- Hsub, <- Z.land_assoc, (Z.land_comm x). apply land_le_l.
  rewrite Z.land_ones by exact Hk. apply Z.mod_pos_bound. lia.
Qed.

(** Masking with [n] ones shifted by [k] selects a field of the word. *)
Lemma land_field x k n :
  0 <= k -> 0 <= n ->
  Z.land x (Z.shiftl (Z.ones n) k) = 2 ^ k * ((x / 2 ^ k) mod 2 ^ n).
Proof.
  intros Hk Hn.
  rewrite <- Z.land_ones, <- Z.shiftr_div_pow2, Z.mul_comm, <- Z.shiftl_mul_pow2
    by assumption.
  bitwise i Hi. destruct (Z.ltb_spec i k) as [Hlt | Hge].
  - rewrite !Z.shiftl_spec_low by exact Hlt. apply andb_false_r.
  - rewrite !Z.shiftl_spec, Z.land_spec, Z.shiftr_spec by lia.
    now replace (i - k + k) with i by lia.
Qed.

(** *** The constants *)

Lemma board_mask_value : board_mask = 279258638311359.
Proof. reflexivity. Qed.

Lemma bottom_mask_value : bottom_mask = 4432676798593.
Proof. reflexivity. Qed.

Lemma columns_range c : In c columns <-> 0 <= c <= 6.
Proof. unfold columns. simpl. lia. Qed.

Lemma column_constants c :
  In c columns ->
  bottom_mask_col c = 2 ^ (7 * c) /\
  column_mask_col c = Z.shiftl (Z.ones 6) (7 * c) /\
  top_mask_col c = 2 ^ (7 * c + 5) /\
  Z.land (column_mask_col c) board_mask = column_mask_col c.
Proof.
  unfold columns. simpl.
  intros [<- | [<- | [<- | [<- | [<- | [<- | [<- | []]]]]]]];
    repeat split; reflexivity.
Qed.

Lemma below_49 (P : Z -> bool) :
  forallb (fun n => P (Z.of_nat n)) (seq 0 49) = true ->
  forall i, 0 <= i < 49 -> P i = true.
Proof.
  intros H i Hi. rewrite forallb_forall in H.
  rewrite <- (Z2Nat.id i) by lia. apply H, in_seq. lia.
Qed.

Lemma board_mask_bits i :
  Z.testbit board_mask i = (0 <=? i) && (i <? 49) && (i mod 7 <? 6).
Proof.
  destruct (Z.leb_spec 0 i) as [Hnn | Hneg]; [| now rewrite Z.testbit_neg_r].
  destruct (Z.ltb_spec i 49) as [Hlt | Hge].
  - apply Bool.eqb_prop.
    apply (below_49 (fun i => Bool.eqb (Z.testbit board_mask i)
                                       (true && true && (i mod 7 <? 6))));
      [vm_compute; reflexivity | lia].
  - apply Z.bits_above_log2; [rewrite board_mask_value; lia |].
    rewrite board_mask_value. simpl. lia.
Qed.

(** A cell of the board lies in some column, below the guard bit. *)
Lemma board_cell i :
  Z.testbit board_mask i = true ->
  exists c r, In c columns /\ 0 <= r < 6 /\ i = 7 * c + r.
Proof.
  rewrite board_mask_bits. intros H.
  apply andb_true_iff in H. destruct H as [H Hr].
  apply andb_true_iff in H. destruct H as [H0 H49].
  apply Z.leb_le in H0. apply Z.ltb_lt in H49, Hr.
  exists (i / 7), (i mod 7). rewrite columns_range. dlia.
Qed.


(** *** Column heights *)


Lemma monotone_step m c row :
  heights_monotone m = true -> In c columns -> 1 <= row <= 5 ->
  Z.testbit m (7 * c + row) = true -> Z.testbit m (7 * c + row - 1) = true.
Proof.
  unfold heights_monotone. rewrite forallb_forall. intros H Hc Hrow Hbit.
  specialize (H c Hc). rewrite forallb_forall in H.
  assert (Hin : In row [1; 2; 3; 4; 5]) by (simpl; lia).
  specialize (H row Hin). now rewrite Hbit in H.
Qed.

Lemma guard_bit_clear x c :
  Z.land x board_mask = x -> In c columns -> Z.testbit x (7 * c + 6) = false.
Proof.
  intros Hx Hc. destruct (Z.testbit x (7 * c + 6)) eqn:Hb; [| reflexivity].
  apply (subset_bit _ _ _ Hx) in Hb. rewrite board_mask_bits in Hb.
  apply columns_range in Hc.
  replace ((7 * c + 6) mod 7) with 6 in Hb by dlia.
  now rewrite andb_false_r in Hb.
Qed.

(** Monotone columns inside the board have heights. *)
Lemma column_height_exists m c :
  Z.land m board_mask = m -> heights_monotone m = true -> In c columns ->
  exists h, column_height m c h.
Proof.
  intros Hboard Hmono Hc.
  assert (Hdown : forall (n : nat) r, 0 <= r -> r + Z.of_nat n <= 5 ->
            Z.testbit m (7 * c + (r + Z.of_nat n)) = true ->
            Z.testbit m (7 * c + r) = true).
  { induction n as [| n IH]; intros r Hr Hle Hbit.
    - now replace (r + Z.of_nat 0) with r in Hbit by lia.
    - apply (IH r Hr ltac:(lia)).
      replace (7 * c + (r + Z.of_nat n)) with (7 * c + (r + Z.of_nat (S n)) - 1) by lia.
      apply monotone_step; try assumption. lia. }
  assert (Hguard := guard_bit_clear m c Hboard Hc).
  assert (Hfound : forall k, 0 <= k <= 5 ->
            (forall r, 0 <= r < k -> Z.testbit m (7 * c + r) = true) ->
            Z.testbit m (7 * c + k) = false -> column_height m c k).
  { intros k Hk Hlow Hclear. split; [lia |]. intros r Hr.
    destruct (Z.ltb_spec r k) as [Hlt | Hge]; [apply Hlow; lia |].
    destruct (Z.eq_dec r 6) as [-> | Hr6]; [exact Hguard |].
    destruct (Z.testbit m (7 * c + r)) eqn:Hbit; [| reflexivity].
    rewrite <- Hclear. symmetry. apply (Hdown (Z.to_nat (r - k)) k); try lia.
    now replace (k + Z.of_nat (Z.to_nat (r - k))) with r by lia. }
  assert (Hgrow : forall k, 0 <= k <= 5 ->
            (forall r, 0 <= r < k -> Z.testbit m (7 * c + r) = true) ->
            Z.testbit m (7 * c + k) = true ->
            forall r, 0 <= r < k + 1 -> Z.testbit m (7 * c + r) = true).
  { intros k Hk Hlow Hset r Hr.
    destruct (Z.eq_dec r k) as [-> | ?]; [exact Hset | apply Hlow; lia]. }
  assert (H0 : forall r, 0 <= r < 0 -> Z.testbit m (7 * c + r) = true) by (intros; lia).
  destruct (Z.testbit m (7 * c + 0)) eqn:B0; [| exists 0; apply Hfound; auto; lia].
  pose proof (Hgrow 0 ltac:(lia) H0 B0) as H1. simpl in H1.
  destruct (Z.testbit m (7 * c + 1)) eqn:B1; [| exists 1; apply Hfound; auto; lia].
  pose proof (Hgrow 1 ltac:(lia) H1 B1) as H2. simpl in H2.
  destruct (Z.testbit m (7 * c + 2)) eqn:B2; [| exists 2; apply Hfound; auto; lia].
  pose proof (Hgrow 2 ltac:(lia) H2 B2) as H3. simpl in H3.
  destruct (Z.testbit m (7 * c + 3)) eqn:B3; [| exists 3; apply Hfound; auto; lia].
  pose proof (Hgrow 3 ltac:(lia) H3 B3) as H4. simpl in H4.
  destruct (Z.testbit m (7 * c + 4)) eqn:B4; [| exists 4; apply Hfound; auto; lia].
  pose proof (Hgrow 4 ltac:(lia) H4 B4) as H5. simpl in H5.
  destruct (Z.testbit m (7 * c + 5)) eqn:B5; [| exists 5; apply Hfound; auto; lia].
  pose proof (Hgrow 5 ltac:(lia) H5 B5) as H6. simpl in H6.
  exists 6. split; [lia |]. intros r Hr.
  destruct (Z.ltb_spec r 6) as [Hlt | Hge]; [apply H6; lia |].
  now replace r with 6 by lia.
Qed.

(** Conversely, columns with heights are monotone. *)
Lemma heights_monotone_intro m :
  (forall c, In c columns -> exists h, column_height m c h) ->
  heights_monotone m = true.
Proof.
  intros H. unfold heights_monotone. apply forallb_forall. intros c Hc.
  destruct (H c Hc) as (h & Hh & Hbits).
  apply forallb_forall. intros row Hrow.
  assert (Hr : 1 <= row <= 5) by (simpl in Hrow; lia).
  replace (7 * c + row - 1) with (7 * c + (row - 1)) by lia.
  rewrite (Hbits row), (Hbits (row - 1)) by lia.
  destruct (Z.ltb_spec row h), (Z.ltb_spec (row - 1) h); simpl; lia || reflexivity.
Qed.

(** The 7-bit lane of a column of height [h] is [2^h - 1]. *)
Lemma column_height_lane m c h :
  In c columns -> column_height m c h -> (m / 2 ^ (7 * c)) mod 2 ^ 7 = Z.ones h.
Proof.
  intros Hc [Hh Hbits]. apply columns_range in Hc.
  apply Z.bits_inj'. intros i Hi.
  rewrite Z.testbit_mod_pow2, Z.testbit_ones_nonneg by lia.
  destruct (Z.ltb_spec i 7) as [Hlt | Hge]; simpl.
  - rewrite Z.div_pow2_bits by lia.
    replace (i + 7 * c) with (7 * c + i) by lia. apply Hbits. lia.
  - symmetry. apply Z.ltb_ge. lia.
Qed.

Lemma inside_board_bounds m : Z.land m board_mask = m -> 0 <= m <= board_mask.
Proof.
  intros H. split.
  - apply (subset_nonneg m board_mask); [rewrite board_mask_value; lia | exact H].
  - rewrite <- H, Z.land_comm. apply land_le_l. rewrite board_mask_value. lia.
Qed.

(** [move_bit] in terms of the lane of the column. *)
Lemma move_bit_lane p c :
  Z.land (mask p) board_mask = mask p -> In c columns ->
  move_bit p c = 2 ^ (7 * c) * (((mask p / 2 ^ (7 * c)) mod 2 ^ 7 + 1) mod 2 ^ 6).
Proof.
  intros Hboard Hc. unfold move_bit.
  destruct (column_constants c Hc) as (-> & -> & _).
  pose proof (inside_board_bounds _ Hboard) as Hm. rewrite board_mask_value in Hm.
  apply columns_range in Hc.
  assert (Hpow : 0 < 2 ^ (7 * c) <= 2 ^ 42).
  { split; [apply Z.pow_pos_nonneg; lia | apply Z.pow_le_mono_r; lia]. }
  rewrite u64_add_small by lia.
  rewrite land_field by lia. f_equal.
  replace (mask p + 2 ^ (7 * c)) with (mask p + 1 * 2 ^ (7 * c)) by lia.
  rewrite Z.div_add by lia.
  change (2 ^ 7) with 128. change (2 ^ 6) with 64.
  generalize (mask p / 2 ^ (7 * c)). intros q. dlia.
Qed.

Lemma move_bit_height p c h :
  Z.land (mask p) board_mask = mask p -> In c columns ->
  column_height (mask p) c h ->
  move_bit p c = if h <? 6 then 2 ^ (7 * c + h) else 0.
Proof.
  intros Hboard Hc Hh. rewrite move_bit_lane by assumption.
  rewrite (column_height_lane _ _ _ Hc Hh), Z.ones_equiv.
  destruct Hh as [Hh _]. apply columns_range in Hc.
  replace (Z.pred (2 ^ h) + 1) with (2 ^ h) by lia.
  destruct (Z.ltb_spec h 6) as [Hlt | Hge].
  - assert (Hsmall : 0 <= 2 ^ h < 2 ^ 6)
      by (split; [apply Z.pow_nonneg; lia | apply Z.pow_lt_mono_r; lia]).
    rewrite Z.mod_small by exact Hsmall. rewrite <- Z.pow_add_r by lia.
    reflexivity.
  - replace h with 6 by lia. change (2 ^ 6 mod 2 ^ 6) with 0. lia.
Qed.

(** *** Counting stones *)

Lemma popcount_fold x : forall l acc,
  fold_left (count_step x) l acc = acc + fold_left (count_step x) l 0.
Proof.
  induction l as [| i l IH]; intros acc; simpl; [lia |].
  rewrite (IH (count_step x acc i)), (IH (count_step x 0 i)).
  unfold count_step. destruct (Z.testbit x (Z.of_nat i)); lia.
Qed.

Lemma popcount_fold_set x j : forall l : list nat,
  Z.testbit x (Z.of_nat j) = false -> NoDup l ->
  fold_left (count_step (Z.lor x (2 ^ Z.of_nat j))) l 0
  = fold_left (count_step x) l 0 + (if bool_decide (j ∈ l) then 1 else 0).
Proof.
  intros l Hclear. induction l as [| i l IH]; intros Hnd; cbn [fold_left].
  - rewrite bool_decide_eq_false_2 by apply not_elem_of_nil. lia.
  - apply NoDup_cons in Hnd. destruct Hnd as [Hnotin Hnd].
    rewrite (popcount_fold _ l (count_step _ 0 i)),
            (popcount_fold x l (count_step x 0 i)), (IH Hnd).
    unfold count_step. rewrite Z.lor_spec, Z.pow2_bits_eqb by lia.
    destruct (Nat.eq_dec i j) as [-> | Hne].
    + rewrite Hclear, Z.eqb_refl. simpl.
      rewrite (bool_decide_eq_false_2 (j ∈ l)) by exact Hnotin.
      rewrite bool_decide_eq_true_2 by apply list_elem_of_here. lia.
    + replace (Z.of_nat j =? Z.of_nat i) with false by (symmetry; apply Z.eqb_neq; lia).
      rewrite orb_false_r.
      destruct (bool_decide (j ∈ l)) eqn:Hin.
      * apply bool_decide_eq_true_1 in Hin.
        rewrite bool_decide_eq_true_2 by (now apply list_elem_of_further).
        destruct (Z.testbit x (Z.of_nat i)); lia.
      * apply bool_decide_eq_false_1 in Hin.
        rewrite bool_decide_eq_false_2
          by (rewrite elem_of_cons; intros [? | ?]; [lia | tauto]).
        destruct (Z.testbit x (Z.of_nat i)); lia.
Qed.

(** Setting a clear bit adds one to the population count. *)
Lemma popcount_set_bit x j :
  0 <= j < 64 -> Z.testbit x j = false -> popcount (Z.lor x (2 ^ j)) = popcount x + 1.
Proof.
  intros Hj Hclear.
  assert (Hfold : forall y, popcount y = fold_left (count_step y) (seq 0 64) 0)
    by reflexivity.
  rewrite !Hfold. rewrite <- (Z2Nat.id j) in * by lia.
  rewrite popcount_fold_set; [| exact Hclear | apply NoDup_seq].
  rewrite bool_decide_eq_true_2; [reflexivity |]. apply elem_of_seq. lia.
Qed.

(** *** Playing a column *)

Lemma pow2_subset x j : 0 <= j -> Z.testbit x j = true -> Z.land (2 ^ j) x = 2 ^ j.
Proof.
  intros Hj Hbit. bitwise i Hi. rewrite Z.pow2_bits_eqb by exact Hj.
  destruct (Z.eqb_spec j i) as [<- | ?]; [now rewrite Hbit | reflexivity].
Qed.

Lemma guard_clear_intro x : Z.land x board_mask = x -> guard_clear x = true.
Proof.
  intros Hx. unfold guard_clear. apply forallb_forall. intros c Hc.
  now rewrite guard_bit_clear.
Qed.

Lemma column_height_set_same m c h :
  In c columns -> column_height m c h -> h <= 5 ->
  column_height (Z.lor m (2 ^ (7 * c + h))) c (h + 1).
Proof.
  intros Hc [Hh Hbits] Hle. apply columns_range in Hc. split; [lia |].
  intros r Hr. rewrite Z.lor_spec, Z.pow2_bits_eqb, Hbits by lia.
  destruct (Z.ltb_spec r h), (Z.eqb_spec (7 * c + h) (7 * c + r)),
    (Z.ltb_spec r (h + 1)); simpl; lia || reflexivity.
Qed.

Lemma column_height_set_other m c h c' h' :
  In c columns -> In c' columns -> c' <> c -> 0 <= h <= 5 ->
  column_height m c' h' -> column_height (Z.lor m (2 ^ (7 * c + h))) c' h'.
Proof.
  intros Hc Hc' Hne Hh [Hh' Hbits]. apply columns_range in Hc, Hc'. split; [lia |].
  intros r Hr. rewrite Z.lor_spec, Z.pow2_bits_eqb, Hbits by lia.
  destruct (Z.eqb_spec (7 * c + h) (7 * c' + r)); [lia | apply orb_false_r].
Qed.

Lemma invariants_spec p :
  invariants p = true <->
  Z.land (current p) (mask p) = current p /\
  Z.land (mask p) board_mask = mask p /\
  Z.land (current p) board_mask = current p /\
  guard_clear (mask p) = true /\ guard_clear (current p) = true /\
  popcount (mask p) = ply p /\
  heights_monotone (mask p) = true.
Proof.
  unfold invariants. rewrite !andb_true_iff, !Z.eqb_eq. tauto.
Qed.

(** A playable column of a well-formed position has a height below 6, and
    the stone lands on the cell of that row. *)
Lemma playable_height p c :
  invariants p = true -> In c columns -> can_play p c = true ->
  exists h, 0 <= h <= 5 /\ column_height (mask p) c h /\
            move_bit p c = 2 ^ (7 * c + h).
Proof.
  intros Hinv Hc Hplay. apply invariants_spec in Hinv.
  destruct Hinv as (_ & Hboard & _ & _ & _ & _ & Hmono).
  destruct (column_height_exists _ _ Hboard Hmono Hc) as [h Hh].
  assert (Hle : h <= 5).
  { unfold can_play in Hplay. destruct (column_constants c Hc) as (_ & _ & Htop & _).
    pose proof Hc as Hrange. apply columns_range in Hrange.
    rewrite Htop, land_pow2_testbit in Hplay by lia.
    destruct Hh as [Hh Hbits]. rewrite (Hbits 5) in Hplay by lia.
    destruct (Z.ltb_spec 5 h); [discriminate | lia]. }
  exists h. destruct Hh as [Hh Hbits]. split; [lia |]. split; [now split |].
  rewrite (move_bit_height p c h Hboard Hc) by (now split).
  destruct (Z.ltb_spec h 6); [reflexivity | lia].
Qed.

Lemma play_col_invariants p c :
  invariants p = true -> In c columns -> can_play p c = true ->
  invariants (play_col p c) = true.
Proof.
  intros Hinv Hc Hplay.
  destruct (playable_height p c Hinv Hc Hplay) as (h & Hh & Hheight & Hmove).
  apply invariants_spec in Hinv.
  destruct Hinv as (Hsub & Hboard & Hcur & _ & _ & Hcount & Hmono).
  pose proof Hc as Hrange. apply columns_range in Hrange.
  assert (Hclear : Z.testbit (mask p) (7 * c + h) = false).
  { destruct Hheight as [_ Hbits]. rewrite Hbits by lia. apply Z.ltb_irrefl. }
  assert (Hcell : Z.testbit board_mask (7 * c + h) = true).
  { rewrite board_mask_bits. replace ((7 * c + h) mod 7) with h by dlia.
    destruct (Z.leb_spec 0 (7 * c + h)), (Z.ltb_spec (7 * c + h) 49), (Z.ltb_spec h 6);
      lia || reflexivity. }
  assert (Hboard' : Z.land (Z.lor (mask p) (2 ^ (7 * c + h))) board_mask
                    = Z.lor (mask p) (2 ^ (7 * c + h))).
  { rewrite Z.land_lor_distr_l, Hboard, pow2_subset by (lia || assumption).
    reflexivity. }
  assert (Hcur' : Z.land (Z.lxor (current p) (mask p)) board_mask
                  = Z.lxor (current p) (mask p)).
  { bitwise i Hi.
    destruct (Z.testbit (current p) i) eqn:Bc, (Z.testbit (mask p) i) eqn:Bm; simpl;
      try reflexivity.
    - now rewrite (subset_bit _ _ _ Hcur Bc).
    - now rewrite (subset_bit _ _ _ Hboard Bm). }
  apply invariants_spec. unfold play_col. cbn [current mask ply]. rewrite Hmove.
  repeat split.
  - bitwise i Hi.
    destruct (Z.testbit (current p) i) eqn:Bc, (Z.testbit (mask p) i) eqn:Bm; simpl;
      try reflexivity.
    rewrite (subset_bit _ _ _ Hsub Bc) in Bm. discriminate.
  - exact Hboard'.
  - exact Hcur'.
  - apply guard_clear_intro, Hboard'.
  - apply guard_clear_intro, Hcur'.
  - rewrite popcount_set_bit by (lia || assumption). lia.
  - apply heights_monotone_intro. intros c' Hc'.
    destruct (Z.eq_dec c' c) as [-> | Hne].
    + exists (h + 1). apply column_height_set_same; [assumption | assumption | lia].
    + destruct (column_height_exists _ _ Hboard Hmono Hc') as [h' Hh'].
      exists h'. now apply column_height_set_other.
Qed.

Lemma reachable_invariants p : reachable p -> invariants p = true.
Proof.
  induction 1 as [| p col _ IH Hcol Hplay]; [reflexivity |].
  now apply play_col_invariants.
Qed.

(** C8: every position reachable from the empty position by [play_col] on
    playable columns satisfies the data-model invariants: [current] is a
    subset of [mask], no bit outside the 42 playable cells is set in either
    field, every column's guard bit is zero, [popcount(mask) = ply], and
    the columns are filled from the bottom (if row [r] of a column is
    occupied, so is row [r - 1]). *)
Theorem reachable_positions_satisfy_invariants (p : Position) (Hreach : reachable p) :
  Z.land (current p) (mask p) = current p /\
  Z.land (mask p) board_mask = mask p /\
  Z.land (current p) board_mask = current p /\
  (forall c, In c columns ->
     Z.testbit (mask p) (7 * c + 6) = false /\
     Z.testbit (current p) (7 * c + 6) = false) /\
  popcount (mask p) = ply p /\
  (forall c r, In c columns -> 1 <= r <= 5 ->
     Z.testbit (mask p) (7 * c + r) = true ->
     Z.testbit (mask p) (7 * c + r - 1) = true) /\
  invariants p = true.
Proof.
  pose proof (reachable_invariants p Hreach) as Hinv.
  pose proof Hinv as Hspec. apply invariants_spec in Hspec.
  destruct Hspec as (Hsub & Hboard & Hcur & _ & _ & Hcount & Hmono).
  repeat split; try assumption.
  - now apply guard_bit_clear.
  - now apply guard_bit_clear.
  - intros c r Hc Hr. now apply monotone_step.
Qed.

Lemma reachable_positions_satisfy_invariants_witness :
  popcount (mask (play_col (play_col empty_position 3) 3)) = 2 /\
  invariants (play_col (play_col empty_position 3) 3) = true.
Proof.
  assert (Hreach : reachable (play_col (play_col empty_position 3) 3)).
  { apply reachable_play; [apply reachable_play; [apply reachable_empty | |] | |];
      solve [reflexivity | simpl; tauto]. }
  destruct (reachable_positions_satisfy_invariants _ Hreach)
    as (_ & _ & _ & _ & Hcount & _ & Hinv).
  split; [exact Hcount | exact Hinv].
Defined.

(** *** Lanes *)

Lemma lane_div x c : 0 <= c -> lane x c = (x / 2 ^ (7 * c)) mod 2 ^ 7.
Proof.
  intros Hc. unfold lane. now rewrite Z.land_ones, Z.shiftr_div_pow2 by lia.
Qed.

Lemma lane_bits x c r :
  0 <= c -> 0 <= r -> Z.testbit (lane x c) r = Z.testbit x (7 * c + r) && (r <? 7).
Proof.
  intros Hc Hr. unfold lane.
  rewrite Z.land_spec, Z.shiftr_spec, Z.testbit_ones_nonneg by lia.
  now replace (r + 7 * c) with (7 * c + r) by lia.
Qed.

Lemma lane_land x y c : lane (Z.land x y) c = Z.land (lane x c) (lane y c).
Proof.
  unfold lane. rewrite Z.shiftr_land. bitwise i Hi.
  destruct (Z.testbit (Z.shiftr x (7 * c)) i), (Z.testbit (Z.shiftr y (7 * c)) i),
    (Z.testbit (Z.ones 7) i); reflexivity.
Qed.

Lemma lane_nonneg x c : 0 <= lane x c.
Proof. unfold lane. apply Z.land_nonneg. right. now compute. Qed.

Lemma lane_subset x y c : Z.land x y = x -> lane x c <= lane y c.
Proof.
  intros H. rewrite <- H at 1. rewrite lane_land, Z.land_comm.
  apply land_le_l, lane_nonneg.
Qed.

(** Words inside the board with the same lanes are equal. *)
Lemma lanes_inj x y :
  Z.land x board_mask = x -> Z.land y board_mask = y ->
  (forall c, In c columns -> lane x c = lane y c) -> x = y.
Proof.
  intros Hx Hy Hlanes. apply Z.bits_inj'. intros i Hi.
  destruct (Z.testbit board_mask i) eqn:Hb.
  - destruct (board_cell i Hb) as (c & r & Hc & Hr & ->).
    pose proof (Hlanes c Hc) as Hl. apply columns_range in Hc.
    apply (f_equal (fun l => Z.testbit l r)) in Hl.
    rewrite !lane_bits in Hl by lia.
    replace (r <? 7) with true in Hl by (symmetry; apply Z.ltb_lt; lia).
    now rewrite !andb_true_r in Hl.
  - rewrite <- Hx, <- Hy, !Z.land_spec, Hb. now rewrite !andb_false_r.
Qed.

Lemma low_part_bound x c :
  Z.land x board_mask = x -> 0 <= c -> x mod 2 ^ (7 * c) <= board_mask mod 2 ^ (7 * c).
Proof.
  intros Hx Hc. apply subset_low_part; [lia | rewrite board_mask_value; lia | exact Hx].
Qed.

(** Replace the closed powers of two and remainders of the goal and the
    hypotheses by their values. *)
Ltac literal v := lazymatch v with Zpos _ => idtac | Z0 => idtac end.

Ltac fold_constants :=
  rewrite ?board_mask_value, ?bottom_mask_value in *;
  repeat match goal with
         | |- context [2 ^ ?e] =>
             let v := eval vm_compute in (2 ^ e) in
             literal v; progress change (2 ^ e) with v in *
         | H : context [2 ^ ?e] |- _ =>
             let v := eval vm_compute in (2 ^ e) in
             literal v; progress change (2 ^ e) with v in *
         end;
  repeat match goal with
         | H : context [Zpos ?a mod Zpos ?b] |- _ =>
             let v := eval vm_compute in (Zpos a mod Zpos b) in
             progress change (Zpos a mod Zpos b) with v in *
         end.

Ltac each_column Hc :=
  unfold columns in Hc; simpl in Hc;
  destruct Hc as [<- | [<- | [<- | [<- | [<- | [<- | [<- | []]]]]]]].

(** Inside the board, lanes add without carry. *)
Lemma lane_add x y c :
  Z.land x board_mask = x -> Z.land y board_mask = y -> In c columns ->
  lane (x + y) c = lane x c + lane y c.
Proof.
  intros Hx Hy Hc.
  pose proof (inside_board_bounds _ Hx) as Bx. pose proof (inside_board_bounds _ Hy) as By.
  apply columns_range in Hc as Hrange.
  rewrite !lane_div by lia.
  pose proof (low_part_bound x c Hx ltac:(lia)) as Lx.
  pose proof (low_part_bound y c Hy ltac:(lia)) as Ly.
  pose proof (low_part_bound x (c + 1) Hx ltac:(lia)) as Ux.
  pose proof (low_part_bound y (c + 1) Hy ltac:(lia)) as Uy.
  clear Hx Hy Hrange. each_column Hc; fold_constants; dlia.
Qed.

(** The drop cell of a column is the cell of [possible_moves] in it. *)
Lemma possible_moves_column p c :
  Z.land (mask p) board_mask = mask p -> In c columns ->
  Z.land (possible_moves p) (column_mask_col c) = move_bit p c.
Proof.
  intros Hboard Hc. unfold possible_moves, move_bit.
  destruct (column_constants c Hc) as (Hbot & Hcol & _ & Hin).
  rewrite <- Z.land_assoc, (Z.land_comm board_mask), Hin, Hbot, Hcol.
  pose proof (inside_board_bounds _ Hboard) as Hm.
  apply columns_range in Hc as Hrange.
  assert (Hpow : 0 < 2 ^ (7 * c) <= 2 ^ 42).
  { split; [apply Z.pow_pos_nonneg; lia | apply Z.pow_le_mono_r; lia]. }
  rewrite !u64_add_small
    by (rewrite ?board_mask_value, ?bottom_mask_value in *; lia).
  rewrite !land_field by lia. f_equal.
  pose proof (low_part_bound _ c Hboard ltac:(lia)) as Lm.
  clear Hboard Hbot Hcol Hin Hrange Hpow.
  each_column Hc; fold_constants; dlia.
Qed.

(** C5: [position_key], defined as [current + mask], is injective over
    positions that satisfy the data-model invariants: equal keys imply
    equal [current] and equal [mask]. *)
Theorem position_key_injective (p p' : Position)
    (Hp : invariants p = true) (Hp' : invariants p' = true)
    (Hkey : position_key p = position_key p') :
  current p = current p' /\ mask p = mask p'.
Proof.
  apply invariants_spec in Hp, Hp'.
  destruct Hp as (Hsub & Hboard & Hcur & _ & _ & _ & Hmono).
  destruct Hp' as (Hsub' & Hboard' & Hcur' & _ & _ & _ & Hmono').
  pose proof (inside_board_bounds _ Hboard) as B1.
  pose proof (inside_board_bounds _ Hcur) as B2.
  pose proof (inside_board_bounds _ Hboard') as B3.
  pose proof (inside_board_bounds _ Hcur') as B4.
  unfold position_key in Hkey.
  rewrite !u64_add_small in Hkey by (rewrite board_mask_value in *; lia).
  assert (Hlanes : forall c, In c columns ->
            lane (current p) c = lane (current p') c /\
            lane (mask p) c = lane (mask p') c).
  { intros c Hc.
    pose proof (f_equal (fun k => lane k c) Hkey) as Hl. simpl in Hl.
    rewrite !lane_add in Hl by assumption.
    destruct (column_height_exists _ _ Hboard Hmono Hc) as [h Hh].
    destruct (column_height_exists _ _ Hboard' Hmono' Hc) as [h' Hh'].
    apply columns_range in Hc as Hrange.
    pose proof (lane_subset _ _ c Hsub) as Hle.
    pose proof (lane_subset _ _ c Hsub') as Hle'.
    pose proof (lane_nonneg (current p) c) as Hnn.
    pose proof (lane_nonneg (current p') c) as Hnn'.
    rewrite (lane_div (mask p)), (column_height_lane _ _ _ Hc Hh) in * by lia.
    rewrite (lane_div (mask p')), (column_height_lane _ _ _ Hc Hh') in * by lia.
    destruct Hh as [Hh _], Hh' as [Hh' _].
    assert (Hcases : forall k, 0 <= k <= 6 ->
              k = 0 \/ k = 1 \/ k = 2 \/ k = 3 \/ k = 4 \/ k = 5 \/ k = 6) by lia.
    destruct (Hcases h Hh) as [-> | [-> | [-> | [-> | [-> | [-> | ->]]]]]];
      destruct (Hcases h' Hh') as [-> | [-> | [-> | [-> | [-> | [-> | ->]]]]]];
      rewrite !Z.ones_equiv in *; fold_constants; lia. }
  split; (apply lanes_inj; [assumption | assumption |]); intros c Hc;
    now destruct (Hlanes c Hc).
Qed.

Lemma position_key_injective_witness :
  current lost_win_position = current (mkPosition 97134980973236 278142351560639 29)
  /\ mask lost_win_position = mask (mkPosition 97134980973236 278142351560639 29).
Proof.
  apply position_key_injective; vm_compute; reflexivity.
Defined.

(** *** Drop cells and winning cells *)












(** ** What the classifier returns *)

Lemma analyze_position_column fuel p st r st' :
  analyze_position fuel p st = Return r st' ->
  r = -1 \/
  (In r columns /\ can_play p r = true /\
   Z.land (non_losing_moves p) (column_mask_col r) <> 0).
Proof.
  intros H.
  destruct (analyze_position_inv _ _ _ _ _ H)
    as [_ [-> | (_ & _ & _ & mc & tbl & Hloop & Hwins)]]; [now left | right].
  destruct (evaluate_moves_winning _ _ _ _ _ _ _ _ Hloop r) as [[] | Hfound];
    [rewrite Hwins; now left | exact Hfound].
Qed.

Lemma non_losing_moves_possible p :
  Z.land (non_losing_moves p) (possible_moves p) = non_losing_moves p.
Proof.
  unfold non_losing_moves.
  destruct (_ =? 0); [| destruct (_ =? 0)]; [| | reflexivity];
    bitwise i Hi;
    destruct (Z.testbit (possible_moves p) i),
      (Z.testbit (opponent_winning_positions p) i),
      (Z.testbit (U64.not (U64.shr (opponent_winning_positions p) 1)) i);
    reflexivity.
Qed.

(** Every value of the table is the initial zero or the column of an entry. *)
Lemma insert_all_values (P : Z -> Prop) fuel table_size :
  forall entries kv kv',
    insert_all fuel table_size entries kv = Some kv' ->
    Forall P kv.2 -> Forall (fun e => P (winning_col e)) entries ->
    Forall P kv'.2.
Proof.
  induction entries as [| e entries IH]; intros kv kv' H Hkv He;
    cbn [insert_all] in H.
  - inversion H; subst. exact Hkv.
  - unfold insert_entry in H.
    destruct (probe_free fuel kv.1 table_size (hash e mod table_size)) as [idx |];
      [| discriminate].
    apply Forall_cons in He. destruct He as [He Hrest].
    apply (IH _ _ H); [| exact Hrest]. cbn [snd].
    now apply Forall_insert.
Qed.

(** C10: for a position that satisfies the data-model invariants,
    [analyze_position] returns -1 or a column [c] between 0 and 6 that is
    playable and whose drop cell belongs to [non_losing_moves]; as a
    consequence, every value byte that the enumeration followed by
    [save_database] stores in the file, in particular in each non-empty
    slot, is a column index between 0 and 6. *)
Theorem analyze_position_returns_playable_column
    (fuel : nat) (p : Position) (st : State) (r : Z) (st' : State)
    (Hinv : invariants p = true)
    (Hrun : analyze_position fuel p st = Return r st') :
  (r = -1 \/
   (0 <= r <= 6 /\ can_play p r = true /\ move_bit p r <> 0 /\
    Z.land (move_bit p r) (non_losing_moves p) = move_bit p r)) /\
  (forall fuel1 fuel2 q depth st0 st1 st2 db,
     critical_list st0 = [] -> file st1 = None ->
     generate_positions fuel1 q depth st0 = Return () st1 ->
     save_database fuel2 st1 = Return () st2 -> file st2 = Some db ->
     Forall is_column (winning_col <$> critical_list st1) /\
     forall idx k v,
       db_keys db !! idx = Some k -> k <> 0 -> db_values db !! idx = Some v ->
       0 <= v <= 6).
Proof.
  split.
  - destruct (analyze_position_column _ _ _ _ _ Hrun) as [-> | (Hc & Hplay & Hcell)];
      [now left | right].
    destruct (playable_height p r Hinv Hc Hplay) as (h & Hh & Hheight & Hmove).
    apply invariants_spec in Hinv. destruct Hinv as (_ & Hboard & _).
    apply columns_range in Hc as Hrange.
    split; [exact Hrange |]. split; [exact Hplay |].
    assert (Hpow : 0 < 2 ^ (7 * r + h)) by (apply Z.pow_pos_nonneg; lia).
    split; [rewrite Hmove; lia |].
    rewrite <- non_losing_moves_possible, <- Z.land_assoc in Hcell.
    rewrite (possible_moves_column p r Hboard Hc), Hmove in Hcell.
    rewrite Hmove. apply pow2_subset; [lia |].
    apply Z.eqb_neq in Hcell. rewrite land_pow2_testbit in Hcell by lia.
    now apply negb_false_iff in Hcell.
  - intros fuel1 fuel2 q depth st0 st1 st2 db Hempty Hnofile Hgen Hsave Hfile.
    assert (Hcols : Forall (fun e => is_column (winning_col e)) (critical_list st1)).
    { destruct (generate_positions_entries _ _ _ _ _ Hgen) as (new & Hlist & Hnew).
      rewrite Hlist, Hempty. simpl.
      eapply Forall_impl; [exact Hnew |].
      intros e (q' & c & fuel' & s1 & s2 & _ & _ & Han & Hc & ->). simpl.
      destruct (analyze_position_column _ _ _ _ _ Han) as [-> | (Hin & _)]; [lia |].
      apply columns_range in Hin. unfold is_column, to_uint8.
      rewrite Z.mod_small; lia. }
    split; [now apply Forall_fmap |].
    unfold save_database in Hsave.
    destruct (critical_count st1 =? 0); [inversion Hsave; subst; congruence |].
    destruct (next_prime _ _) as [table_size |]; [| discriminate].
    assert (Hfile_alloc : forall s, file (alloc s).2 = file s
                                    /\ critical_list (alloc s).2 = critical_list s).
    { intros s. unfold alloc. destruct (heap s); split; reflexivity. }
    destruct (Hfile_alloc st1) as [Hf1 Hl1].
    destruct (alloc st1) as [ok1 s1]. simpl in Hf1, Hl1.
    destruct (Hfile_alloc s1) as [Hf2 Hl2].
    destruct (alloc s1) as [ok2 s2]. simpl in Hf2, Hl2.
    destruct (negb ok1 || negb ok2).
    { inversion Hsave; subst. simpl in Hfile. congruence. }
    destruct (insert_all _ _ _ _) as [[ks vs] |] eqn:Hins; [| discriminate].
    destruct (negb (fopen_ok s2)).
    { inversion Hsave; subst. simpl in Hfile. congruence. }
    inversion Hsave; subst. simpl in Hfile. inversion Hfile; subst. simpl.
    intros idx k v _ _ Hv.
    assert (Hall : Forall is_column vs).
    { apply (insert_all_values is_column _ _ _ _ _ Hins).
      - simpl. apply Forall_replicate. unfold is_column. lia.
      - now rewrite Hl2, Hl1. }
    rewrite Forall_lookup in Hall. exact (Hall idx v Hv).
Qed.

Lemma analyze_position_returns_playable_column_witness :
  0 <= 3 <= 6 /\ can_play reported_position 3 = true /\
  Z.land (move_bit reported_position 3) (non_losing_moves reported_position)
  = move_bit reported_position 3.
Proof.
  assert (Hrun : exists st',
             analyze_position 64 reported_position (initial_state [] true)
             = Return 3 st').
  { vm_compute. eexists. reflexivity. }
  destruct Hrun as [st' Hrun].
  destruct (analyze_position_returns_playable_column 64 reported_position _ 3 st'
              ltac:(vm_compute; reflexivity) Hrun) as [[Habs | (Hr & Hp & _ & Hm)] _].
  - discriminate Habs.
  - split; [exact Hr | split; [exact Hp | exact Hm]].
Defined.

(** ** The hash table and its lookup *)

(** C2 (as stated, fails): the keys of two different reachable positions
    can agree on bits 16..47 and on the remainder modulo the table size;
    both entries are written, and the lookup of the second key stops at the
    slot of the first and returns its column. *)
Lemma lookup_returns_column_of_other_entry :
  enumerator_path empty_position collision_moves_1 = true /\
  enumerator_path empty_position collision_moves_2 = true /\
  hash <$> collision_entries = [52951041263764; 52951041264784] /\
  match save_database 64 (mkState ∅ collision_entries 1000000 0 2 0 [] [] true None) with
  | Return _ st =>
      match file st with
      | Some db =>
          db_table_size db = 5 /\
          db_keys db = [807968769; 0; 0; 0; 807968769] /\
          db_values db = [2; 0; 0; 0; 3] /\
          lookup 64 (db_table_size db) (db_keys db) (db_values db) 52951041264784
          = Some (Some 3)
      | None => False
      end
  | _ => False
  end.
Proof.
  split; [vm_compute; reflexivity |]. split; [vm_compute; reflexivity |].
  split; [vm_compute; reflexivity |].
  vm_compute. repeat split; reflexivity.
Qed.

Section HashTable.

Variable table_size : Z.
Hypothesis table_size_range : 0 < table_size < 2 ^ 32.

Lemma next_range idx : 0 <= next_slot table_size idx < table_size.
Proof. unfold next_slot. apply Z.mod_pos_bound. lia. Qed.

Lemma u64_next idx : 0 <= idx < table_size -> U64.add idx 1 mod table_size = next_slot table_size idx.
Proof. intros Hi. unfold next_slot. now rewrite u64_add_small by lia. Qed.

Lemma probe_impl (P Q : Z -> Prop) keys s d idx :
  (forall i k, keys !! i = Some k -> k <> 0 -> P k -> Q k) ->
  probe table_size P keys s d idx -> probe table_size Q keys s d idx.
Proof.
  intros HPQ Hp. induction Hp as [| s k d idx Hk Hnz HP _ IH]; [constructor |].
  econstructor; eauto.
Qed.

(** Writing into an empty slot keeps the probe sequences. *)
Lemma probe_insert (P : Z -> Prop) keys j x s d idx :
  keys !! j = Some 0 -> probe table_size P keys s d idx -> probe table_size P (<[j := x]> keys) s d idx.
Proof.
  intros Hj Hp. induction Hp as [| s k d idx Hk Hnz HP _ IH]; [constructor |].
  apply (probe_next _ _ _ s k); try assumption.
  rewrite list_lookup_insert_ne; [exact Hk |]. intros Heq. rewrite Heq in Hj. congruence.
Qed.

Lemma mod_below a : - table_size <= a < 0 -> a mod table_size = a + table_size.
Proof.
  intros Ha. rewrite <- (Z.mod_add a 1 table_size) by lia.
  rewrite Z.mul_1_l. apply Z.mod_small. lia.
Qed.

Lemma dist_next s z :
  0 <= s < table_size -> 0 <= z < table_size -> s <> z ->
  probe_distance table_size (next_slot table_size s) z = probe_distance table_size s z - 1 /\ 0 < probe_distance table_size s z.
Proof.
  intros Hs Hz Hne. unfold probe_distance, next_slot.
  destruct (Z.eq_dec (s + 1) table_size) as [Hwrap | Hno].
  - replace ((s + 1) mod table_size) with 0
      by (rewrite Hwrap, Z.mod_same; lia).
    rewrite Z.sub_0_r, (Z.mod_small z), (mod_below (z - s)) by lia. lia.
  - rewrite (Z.mod_small (s + 1)) by lia.
    destruct (Z_lt_le_dec s z) as [Hlt | Hge].
    + rewrite !Z.mod_small by lia. lia.
    + rewrite (mod_below (z - (s + 1))), (mod_below (z - s)) by lia. lia.
Qed.

(** With an empty slot [z] in the table, the probe for a free slot stops
    on an empty slot, after at most the distance to [z], over occupied
    slots. *)
Lemma probe_free_spec keys z fuel :
  keys !! Z.to_nat z = Some 0 -> 0 <= z < table_size ->
  forall s idx, 0 <= s < table_size ->
    probe_free fuel keys table_size s = Some idx ->
    0 <= idx < table_size /\ keys !! Z.to_nat idx = Some 0 /\
    exists d, probe table_size (fun _ => True) keys s d idx /\ Z.of_nat d <= probe_distance table_size s z.
Proof.
  intros Hz Hzr. induction fuel as [| fuel IH]; intros s idx Hs H;
    cbn [probe_free] in H;
    destruct (keys !! Z.to_nat s) as [k |] eqn:Hk; try discriminate;
    destruct (Z.eqb_spec k 0) as [-> | Hnz]; try discriminate;
    try (injection H as <-; split; [exact Hs |]; split; [exact Hk |];
         exists 0%nat; split; [constructor |];
         pose proof (Z.mod_pos_bound (z - s) table_size ltac:(lia)); unfold probe_distance; lia).
  rewrite u64_next in H by exact Hs.
  assert (Hne : s <> z) by (intros ->; congruence).
  destruct (dist_next s z Hs Hzr Hne) as [Hdist _].
  destruct (IH (next_slot table_size s) idx (next_range s) H) as (Hidx & Hfree & d & Hp & Hd).
  split; [exact Hidx |]. split; [exact Hfree |].
  exists (S d). split; [| lia].
  apply (probe_next _ _ _ s k); auto.
Qed.

Lemma probe_free_total keys z :
  keys !! Z.to_nat z = Some 0 -> 0 <= z < table_size ->
  length keys = Z.to_nat table_size ->
  forall (n : nat) s fuel, 0 <= s < table_size -> probe_distance table_size s z = Z.of_nat n ->
    (n <= fuel)%nat -> exists idx, probe_free fuel keys table_size s = Some idx.
Proof.
  intros Hz Hzr Hlen. induction n as [| n IH]; intros s fuel Hs Hd Hfuel.
  - assert (s = z).
    { destruct (Z.eq_dec s z) as [? | Hne]; [assumption |].
      destruct (dist_next s z Hs Hzr Hne). lia. }
    subst s. destruct fuel; cbn [probe_free]; rewrite Hz; cbn; eauto.
  - destruct fuel as [| fuel]; [lia |]. cbn [probe_free].
    destruct (keys !! Z.to_nat s) as [k |] eqn:Hk.
    + destruct (Z.eqb_spec k 0); [eauto |].
      rewrite u64_next by exact Hs.
      assert (Hne : s <> z) by (intros ->; congruence).
      destruct (dist_next s z Hs Hzr Hne) as [Hdist _].
      apply IH; [apply next_range | lia | lia].
    + apply lookup_ge_None in Hk. lia.
Qed.

Lemma occupied_replicate n : occupied (replicate n 0) = 0%nat.
Proof. induction n as [| n IH]; [reflexivity |]. simpl. exact IH. Qed.

Lemma occupied_insert keys : forall j x,
  keys !! j = Some 0 -> x <> 0 -> occupied (<[j := x]> keys) = S (occupied keys).
Proof.
  induction keys as [| k keys IH]; intros j x Hj Hx; [discriminate |].
  destruct j as [| j]; simpl in *.
  - injection Hj as ->. destruct (Z.eqb_spec x 0); [contradiction | reflexivity].
  - rewrite (IH j x Hj Hx). lia.
Qed.

Lemma occupied_le keys : (occupied keys <= length keys)%nat.
Proof.
  induction keys as [| k keys IH]; simpl; [lia |]. destruct (k =? 0); lia.
Qed.

(** A table that is not full has an empty slot. *)
Lemma empty_slot keys :
  (occupied keys < length keys)%nat -> exists j, keys !! j = Some 0.
Proof.
  induction keys as [| k keys IH]; simpl; [lia |].
  destruct (Z.eqb_spec k 0) as [-> | Hnz]; intros H.
  - now exists 0%nat.
  - destruct IH as [j Hj]; [lia |]. now exists (S j).
Qed.

Lemma table_inv_empty :
  table_inv table_size [] (replicate (Z.to_nat table_size) 0, replicate (Z.to_nat table_size) 0).
Proof.
  unfold table_inv. cbn [fst snd]. rewrite !length_replicate, occupied_replicate.
  split; [reflexivity |]. split; [reflexivity |]. split; [simpl; lia |]. split.
  - intros i k Hk Hnz. apply lookup_replicate in Hk. destruct Hk as [-> _]. lia.
  - intros e He. apply elem_of_nil in He. contradiction.
Qed.

(** Lookup follows the probe sequence of a stored entry. *)
Lemma lookup_from_stored keys values hash64 v :
  partial_key hash64 <> 0 ->
  forall s d idx fuel,
    0 <= s < table_size ->
    probe table_size (fun k => k <> partial_key hash64) keys s d idx ->
    keys !! Z.to_nat idx = Some (partial_key hash64) ->
    values !! Z.to_nat idx = Some v ->
    (d <= fuel)%nat ->
    lookup_from fuel table_size keys values hash64 s = Some (Some v).
Proof.
  intros Hpk s d idx fuel Hs Hp. revert fuel Hs.
  induction Hp as [s | s k d idx Hk Hnz Hne _ IH]; intros fuel Hs Hkey Hval Hfuel.
  - destruct fuel; cbn [lookup_from]; rewrite Hkey;
      fold (partial_key hash64);
      destruct (Z.eqb_spec (partial_key hash64) 0); try contradiction;
      rewrite Z.eqb_refl; now rewrite Hval.
  - destruct fuel as [| fuel]; [lia |]. cbn [lookup_from]. rewrite Hk.
    fold (partial_key hash64).
    destruct (Z.eqb_spec k 0); [contradiction |].
    destruct (Z.eqb_spec k (partial_key hash64)); [contradiction |].
    rewrite u64_next by exact Hs.
    apply IH; [apply next_range | assumption | assumption | lia].
Qed.

(** One insertion keeps the invariant, and succeeds with enough budget. *)
Lemma insert_entry_inv fuel done e kv :
  table_inv table_size done kv ->
  partial_key (hash e) <> 0 ->
  (forall e', e' ∈ done -> partial_key (hash e') <> partial_key (hash e)) ->
  (length done < Z.to_nat table_size)%nat ->
  ((Z.to_nat table_size <= fuel)%nat ->
   exists kv', insert_entry fuel table_size e kv = Some kv') /\
  (forall kv', insert_entry fuel table_size e kv = Some kv' ->
     table_inv table_size (done ++ [e]) kv').
Proof.
  intros (Hlen1 & Hlen2 & Hocc & Hkeys & Hstored) Hpk Hfresh Hroom.
  destruct (empty_slot kv.1 ltac:(lia)) as [j Hj].
  assert (Hjlt : (j < Z.to_nat table_size)%nat)
    by (rewrite <- Hlen1; eapply lookup_lt_Some, Hj).
  assert (Hz : kv.1 !! Z.to_nat (Z.of_nat j) = Some 0) by (now rewrite Nat2Z.id).
  assert (Hzr : 0 <= Z.of_nat j < table_size) by lia.
  assert (Hhome : 0 <= hash e mod table_size < table_size)
    by (apply Z.mod_pos_bound; lia).
  unfold insert_entry. fold (partial_key (hash e)). split.
  - intros Hfuel.
    pose proof (Z.mod_pos_bound (Z.of_nat j - hash e mod table_size) table_size
                  ltac:(lia)) as Hd.
    assert (Hdist : probe_distance table_size (hash e mod table_size) (Z.of_nat j)
                    = Z.of_nat (Z.to_nat ((Z.of_nat j - hash e mod table_size)
                                          mod table_size)))
      by (unfold probe_distance; lia).
    destruct (probe_free_total kv.1 _ Hz Hzr Hlen1 _ _ fuel Hhome Hdist ltac:(lia))
      as [idx Hidx].
    rewrite Hidx. eauto.
  - intros kv' H.
    destruct (probe_free fuel kv.1 table_size (hash e mod table_size)) as [idx |] eqn:Hprobe;
      [| discriminate].
    injection H as <-.
    destruct (probe_free_spec kv.1 _ fuel Hz Hzr _ _ Hhome Hprobe)
      as (Hidx & Hfree & d & Hpath & Hd).
    unfold probe_distance in Hd.
    pose proof (Z.mod_pos_bound (Z.of_nat j - hash e mod table_size) table_size
                  ltac:(lia)) as Hdist.
    unfold table_inv. cbn [fst snd]. rewrite !length_insert.
    split; [exact Hlen1 |]. split; [exact Hlen2 |]. split.
    { rewrite (occupied_insert _ _ _ Hfree Hpk), length_app. simpl. lia. }
    split.
    + intros i k Hk Hnz. destruct (Nat.eq_dec i (Z.to_nat idx)) as [-> | Hne].
      * rewrite list_lookup_insert_eq in Hk by lia. injection Hk as <-.
        exists e. split; [apply elem_of_app; right; apply list_elem_of_here | reflexivity].
      * rewrite list_lookup_insert_ne in Hk by congruence.
        destruct (Hkeys i k Hk Hnz) as (e' & He' & ->).
        exists e'. split; [apply elem_of_app; now left | reflexivity].
    + intros e' He'. apply elem_of_app in He'. destruct He' as [He' | He'].
      * destruct (Hstored e' He') as (Hpk' & d' & idx' & Hd' & Hpath' & Hkey' & Hval').
        assert (Hdiff : Z.to_nat idx <> Z.to_nat idx').
        { intros Heq. rewrite Heq, Hkey' in Hfree. congruence. }
        split; [exact Hpk' |].
        exists d', idx'. split; [exact Hd' |]. split; [now apply probe_insert |].
        rewrite !list_lookup_insert_ne by exact Hdiff. now split.
      * apply list_elem_of_singleton in He'. subst e'. split; [exact Hpk |].
        exists d, idx. split; [lia |]. split.
        -- apply probe_insert; [exact Hfree |].
           eapply probe_impl; [| exact Hpath].
           intros i k Hk Hnz _. destruct (Hkeys i k Hk Hnz) as (e' & He' & ->).
           now apply Hfresh.
        -- rewrite !list_lookup_insert_eq by lia. now split.
Qed.

End HashTable.

(** Inserting a list of entries with non-zero, pairwise different partial
    keys keeps the invariant, and succeeds with enough budget. *)
Lemma insert_all_inv table_size fuel :
  0 < table_size < 2 ^ 32 ->
  forall rest done kv,
    table_inv table_size done kv ->
    (forall e, e ∈ rest -> partial_key (hash e) <> 0) ->
    NoDup ((fun e => partial_key (hash e)) <$> (done ++ rest)) ->
    (length done + length rest < Z.to_nat table_size)%nat ->
    ((Z.to_nat table_size <= fuel)%nat ->
     exists kv', insert_all fuel table_size rest kv = Some kv') /\
    (forall kv', insert_all fuel table_size rest kv = Some kv' ->
       table_inv table_size (done ++ rest) kv').
Proof.
  intros Hts. induction rest as [| e rest IH]; intros done kv Hinv Hnz Hnd Hroom;
    cbn [insert_all].
  - rewrite app_nil_r. split; [eauto |]. intros kv' H. now injection H as <-.
  - assert (Hfresh : forall e', e' ∈ done ->
              partial_key (hash e') <> partial_key (hash e)).
    { intros e' He' Heq. rewrite fmap_app in Hnd. apply NoDup_app in Hnd.
      destruct Hnd as (_ & Hdisj & _).
      apply (Hdisj (partial_key (hash e'))).
      - apply list_elem_of_fmap. now exists e'.
      - rewrite Heq. apply list_elem_of_fmap. exists e. split; [reflexivity |].
        apply list_elem_of_here. }
    simpl in Hroom.
    destruct (insert_entry_inv table_size Hts fuel done e kv Hinv
                (Hnz e (list_elem_of_here _ _)) Hfresh ltac:(lia)) as [Htotal Hkeep].
    assert (Hrest : forall e', e' ∈ rest -> partial_key (hash e') <> 0)
      by (intros e' He'; apply Hnz; now apply list_elem_of_further).
    assert (Hnd' : NoDup ((fun e => partial_key (hash e)) <$> ((done ++ [e]) ++ rest)))
      by (now rewrite <- app_assoc).
    assert (Hroom' : (length (done ++ [e]) + length rest < Z.to_nat table_size)%nat)
      by (rewrite length_app; simpl; lia).
    split.
    + intros Hfuel. destruct (Htotal Hfuel) as [kv1 Hkv1]. rewrite Hkv1.
      destruct (IH (done ++ [e]) kv1 (Hkeep kv1 Hkv1) Hrest Hnd' Hroom') as [Hgo _].
      exact (Hgo Hfuel).
    + intros kv' H.
      destruct (insert_entry fuel table_size e kv) as [kv1 |] eqn:Hkv1; [| discriminate].
      destruct (IH (done ++ [e]) kv1 (Hkeep kv1 eq_refl) Hrest Hnd' Hroom') as [_ Hdone].
      replace (done ++ e :: rest) with ((done ++ [e]) ++ rest)
        by (now rewrite <- app_assoc).
      exact (Hdone kv' H).
Qed.

(** The least prime from twice the number of entries on exceeds that number. *)
Lemma table_size_bounds fuel (entries : list CriticalEntry) table_size :
  1 <= Z.of_nat (length entries) ->
  2 * Z.of_nat (length entries) <= largest_prime32 ->
  next_prime fuel (U64.mul (Z.of_nat (length entries)) 2) = Some table_size ->
  Z.of_nat (length entries) < table_size < 2 ^ 32.
Proof.
  intros Hpos Hfit Hnext.
  rewrite (Z.mul_comm 2) in Hfit.
  assert (Hmul : U64.mul (Z.of_nat (length entries)) 2 = Z.of_nat (length entries) * 2).
  { unfold U64.mul, U64.wrap, U64.modulus. apply Z.mod_small.
    unfold largest_prime32 in Hfit. lia. }
  rewrite Hmul in Hnext.
  assert (Hrange0 : 0 <= Z.of_nat (length entries) * 2 <= largest_prime32) by lia.
  destruct (next_prime_least _ _ _ Hrange0 Hnext) as (_ & Hrange & _).
  unfold largest_prime32 in Hrange. lia.
Qed.

(** Every entry of a table built from entries with non-zero, pairwise
    different partial keys is found again. *)
Lemma built_table_lookup fuel (entries : list CriticalEntry) table_size keys values :
  1 <= Z.of_nat (length entries) ->
  2 * Z.of_nat (length entries) <= largest_prime32 ->
  (forall e, e ∈ entries -> partial_key (hash e) <> 0) ->
  NoDup ((fun e => partial_key (hash e)) <$> entries) ->
  next_prime fuel (U64.mul (Z.of_nat (length entries)) 2) = Some table_size ->
  insert_all fuel table_size entries
             (replicate (Z.to_nat table_size) 0, replicate (Z.to_nat table_size) 0)
  = Some (keys, values) ->
  forall e, e ∈ entries -> forall fuel', table_size <= Z.of_nat fuel' ->
    lookup fuel' table_size keys values (hash e) = Some (Some (winning_col e)).
Proof.
  intros Hpos Hfit Hnz Hnd Hnext Hins e He fuel' Hfuel'.
  pose proof (table_size_bounds _ _ _ Hpos Hfit Hnext) as Hts.
  assert (Hts' : 0 < table_size < 2 ^ 32) by lia.
  destruct (insert_all_inv table_size fuel Hts' entries [] _
              (table_inv_empty table_size) Hnz Hnd ltac:(simpl; lia)) as [_ Hinv].
  destruct (Hinv _ Hins) as (_ & _ & _ & _ & Hstored).
  destruct (Hstored e He) as (Hpk & d & idx & Hd & Hpath & Hkey & Hval).
  unfold lookup.
  apply (lookup_from_stored table_size Hts' keys values (hash e) (winning_col e) Hpk
           _ d idx); try assumption; [apply Z.mod_pos_bound; lia | lia].
Qed.

(** C2 (amended): when the partial keys (bits 16..47 of the keys) of the
    entries are non-zero and pairwise different, and the table size fits
    its 32-bit field, the serializer builds its table, and for every entry
    [(key, col)] written the lookup procedure (home slot [key mod
    table_size], linear probing, match on the partial key, stop on a zero
    key) returns exactly [col]. *)
Theorem lookup_recovers_column (entries : list CriticalEntry)
    (Hpos : 1 <= Z.of_nat (length entries))
    (Hfit : 2 * Z.of_nat (length entries) <= largest_prime32)
    (Hnonzero : forall e, e ∈ entries -> partial_key (hash e) <> 0)
    (Hdistinct : NoDup ((fun e => partial_key (hash e)) <$> entries)) :
  (exists table_size,
     forall fuel, 65535 + table_size < Z.of_nat fuel ->
       exists keys values, build_table fuel entries = Some (table_size, keys, values)) /\
  (forall fuel table_size keys values,
     build_table fuel entries = Some (table_size, keys, values) ->
     forall e, e ∈ entries -> forall fuel', table_size <= Z.of_nat fuel' ->
       lookup fuel' table_size keys values (hash e) = Some (Some (winning_col e))) /\
  (forall fuel st st' db,
     critical_list st = entries -> file st = None ->
     save_database fuel st = Return () st' -> file st' = Some db ->
     forall e, e ∈ entries -> forall fuel', db_table_size db <= Z.of_nat fuel' ->
       lookup fuel' (db_table_size db) (db_keys db) (db_values db) (hash e)
       = Some (Some (winning_col e))).
Proof.
  assert (Hmul : U64.mul (Z.of_nat (length entries)) 2 = 2 * Z.of_nat (length entries)).
  { unfold U64.mul, U64.wrap, U64.modulus. rewrite Z.mod_small;
      unfold largest_prime32 in *; lia. }
  split; [| split].
  - destruct (least_prime_from (2 * Z.of_nat (length entries)) ltac:(lia))
      as (t & _ & Hbounds & _ & Hrun & _).
    exists t. intros fuel Hfuel. unfold build_table.
    rewrite Hmul, (Hrun fuel ltac:(lia)).
    assert (Hts : 0 < t < 2 ^ 32) by (unfold largest_prime32 in *; lia).
    destruct (insert_all_inv t fuel Hts entries [] _ (table_inv_empty t)
                Hnonzero Hdistinct ltac:(simpl; lia)) as [Htotal _].
    destruct (Htotal ltac:(lia)) as [[keys values] Hins].
    rewrite Hins. eauto.
  - intros fuel table_size keys values Hbuild.
    unfold build_table in Hbuild.
    destruct (next_prime fuel (U64.mul (Z.of_nat (length entries)) 2))
      as [ts |] eqn:Hnext; [| discriminate].
    destruct (insert_all fuel ts entries _) as [[ks vs] |] eqn:Hins; [| discriminate].
    injection Hbuild as <- <- <-.
    exact (built_table_lookup fuel entries ts ks vs Hpos Hfit Hnonzero Hdistinct
             Hnext Hins).
  - intros fuel st st' db Hlist Hnofile Hsave Hfile.
    unfold save_database, critical_count in Hsave. rewrite Hlist in Hsave.
    destruct (Z.of_nat (length entries) =? 0);
      [apply return_inj in Hsave; destruct Hsave as [_ <-]; congruence |].
    destruct (next_prime fuel (U64.mul (Z.of_nat (length entries)) 2))
      as [ts |] eqn:Hnext; [| discriminate].
    pose proof (table_size_bounds _ _ _ Hpos Hfit Hnext) as Hts.
    assert (Halloc : forall s, file (alloc s).2 = file s
                               /\ critical_list (alloc s).2 = critical_list s).
    { intros s. unfold alloc. destruct (heap s); split; reflexivity. }
    destruct (Halloc st) as [Hf1 Hl1]. destruct (alloc st) as [ok1 s1].
    cbn [snd] in Hf1, Hl1.
    destruct (Halloc s1) as [Hf2 Hl2]. destruct (alloc s1) as [ok2 s2].
    cbn [snd] in Hf2, Hl2.
    destruct (negb ok1 || negb ok2).
    { apply return_inj in Hsave. destruct Hsave as [_ <-].
      cbn [eprint file] in Hfile. congruence. }
    rewrite Hl2, Hl1, Hlist in Hsave.
    destruct (insert_all fuel ts entries _) as [[ks vs] |] eqn:Hins; [| discriminate].
    destruct (negb (fopen_ok s2)).
    { apply return_inj in Hsave. destruct Hsave as [_ <-].
      cbn [eprint file] in Hfile. congruence. }
    apply return_inj in Hsave. destruct Hsave as [_ <-].
    cbn [file] in Hfile. injection Hfile as <-. cbn [db_table_size db_keys db_values].
    replace (to_uint32 ts) with ts by (unfold to_uint32; rewrite Z.mod_small; lia).
    exact (built_table_lookup fuel entries ts ks vs Hpos Hfit Hnonzero Hdistinct
             Hnext Hins).
Qed.

Lemma lookup_recovers_column_witness :
  build_table (Z.to_nat 65541) distinct_entries
  = Some (5, [0; 0; 1897406649; 2470977734; 0], [0; 0; 3; 1; 0]) /\
  Forall (fun e => lookup 5 5 [0; 0; 1897406649; 2470977734; 0] [0; 0; 3; 1; 0] (hash e)
                   = Some (Some (winning_col e))) distinct_entries.
Proof.
  assert (Hbuild : build_table (Z.to_nat 65541) distinct_entries
                   = Some (5, [0; 0; 1897406649; 2470977734; 0], [0; 0; 3; 1; 0]))
    by (vm_compute; reflexivity).
  split; [exact Hbuild |].
  apply Forall_forall. intros e He.
  refine (proj1 (proj2 (lookup_recovers_column distinct_entries _ _ _ _))
            _ _ _ _ Hbuild e He 5%nat _).
  - vm_compute. discriminate.
  - vm_compute. discriminate.
  - intros e' He'. unfold distinct_entries in He'.
    apply elem_of_cons in He'. destruct He' as [-> | He']; [vm_compute; discriminate |].
    apply list_elem_of_singleton in He'. subst e'. vm_compute. discriminate.
  - change (NoDup [partial_key (position_key reported_position);
                   partial_key (position_key forced_block_position)]).
    apply NoDup_cons. split; [| apply NoDup_singleton].
    intros Hin. apply list_elem_of_singleton in Hin. revert Hin.
    vm_compute. discriminate.
  - vm_compute. discriminate.
Defined.
